(** * Gradient remapping (erosion/remap_gradient.py)

    A shallow embedding of [bilinear_sample], [build_red_to_green_map] and
    [remap_gradient], and the properties of the design document proved on it.

    Number models.  The program computes in IEEE binary64, and the file
    reads it in two ways.

    The exact reading: a finite float is an exact rational ([Q]), rounding
    error and overflow are left out, and the division by
    [animation_duration] has its non-finite results ([np_float]).  The
    table, the structure of the sampling, the final clip and cast, and the
    properties that rounding leaves alone (an order, a saturation, a raise
    at 0 / 0) are stated in this reading.

    The binary64 reading ([Module B64]): the arithmetic of the resampler
    with the operations of [SpecFloat], precision 53 and rounding to
    nearest even.  What depends on rounding (the integer [round] returns,
    the width of the guarded time window, the last bits of a blend) is
    stated in this reading.

    An array element of an integer image is a [Z]. *)

From stdpp Require Import base list.
From Stdlib Require Import ZArith QArith Qround Lqa Lia.
From Stdlib Require SpecFloat.

Local Open Scope Q_scope.

(** ** Exceptions and the error monad *)

(** The only exception the modelled code can raise is numpy's IndexError. *)
Inductive exn : Set := IndexError.

(** The error taxonomy of the design document. *)
Inductive error_class : Set := InvalidInput | IOError | DecodeError.

(** An index that does not fit the shape of the input is an invalid input. *)
Definition classify (e : exn) : error_class :=
  match e with IndexError => InvalidInput end.

Definition res (A : Type) : Type := exn + A.

Definition ret {A} (a : A) : res A := inr a.
Definition raise {A} (e : exn) : res A := inl e.
Definition bind {A B} (m : res A) (k : A -> res B) : res B :=
  match m with
  | inl e => inl e
  | inr a => k a
  end.

Notation "'do' x <- m ; k" := (bind m (fun x => k))
  (at level 10, x name, m at level 100, k at level 200).

Fixpoint mapM {A B} (f : A -> res B) (l : list A) : res (list B) :=
  match l with
  | [] => ret []
  | a :: l' => do b <- f a; do bs <- mapM f l'; ret (b :: bs)
  end.

(** ** Rational helpers *)

Definition Qlt_bool (a b : Q) : bool := negb (Qle_bool b a).

(** [np.clip] on finite numbers: [minimum(maximum(x, lo), hi)]. *)
Definition Qclip (x lo hi : Q) : Q :=
  let m := if Qlt_bool x lo then lo else x in
  if Qlt_bool hi m then hi else m.

Definition Zclip (x lo hi : Z) : Z := Z.min (Z.max x lo) hi.

(** Truncation toward zero, the C cast from double to an integer. *)
Definition Qtruncate (x : Q) : Z :=
  if Qlt_bool x 0 then Qceiling x else Qfloor x.

(** Python's [round] on a float: to the nearest integer, ties to even. *)
Definition py_round (x : Q) : Z :=
  let f := Qfloor x in
  let d := x - inject_Z f in
  if Qlt_bool d (1 # 2) then f
  else if Qlt_bool (1 # 2) d then (f + 1)%Z
  else if Z.even f then f else (f + 1)%Z.

(** ** The numpy primitives the program uses *)

(** A binary64 value: finite, or one of the three non-finite values. *)
Inductive np_float : Type :=
| Fin (q : Q)
| PosInf
| NegInf
| NaN.

(** [a / b] on floats (numpy warns and goes on when [b] is zero). *)
Definition np_divide (a b : Q) : np_float :=
  if Qeq_bool b 0 then
    if Qlt_bool 0 a then PosInf
    else if Qlt_bool a 0 then NegInf
    else NaN
  else Fin (a / b).

(** [np.clip(x, lo, hi)]: infinities are clipped, NaN goes through. *)
Definition np_clip (x : np_float) (lo hi : Q) : np_float :=
  match x with
  | Fin q => Fin (Qclip q lo hi)
  | PosInf => Fin (Qclip hi lo hi)
  | NegInf => Fin (Qclip lo lo hi)
  | NaN => NaN
  end.

(** [x * k] for a finite [k]. *)
Definition np_scale (x : np_float) (k : Q) : np_float :=
  match x with
  | Fin q => Fin (q * k)
  | PosInf =>
      if Qlt_bool 0 k then PosInf else if Qlt_bool k 0 then NegInf else NaN
  | NegInf =>
      if Qlt_bool 0 k then NegInf else if Qlt_bool k 0 then PosInf else NaN
  | NaN => NaN
  end.

(** [np.linspace(start, stop, num)]. *)
Definition np_linspace (start stop : Q) (num : nat) : list Q :=
  match num with
  | 1%nat => [start]
  | _ =>
      let step := (stop - start) / inject_Z (Z.of_nat num - 1) in
      map (fun i => inject_Z (Z.of_nat i) * step + start) (seq 0 num)
  end.

(** [xs[mask]]: the elements of [xs] where the boolean mask holds. *)
Fixpoint np_compress {A} (mask : list bool) (xs : list A) : list A :=
  match mask, xs with
  | b :: mask', x :: xs' =>
      if b then x :: np_compress mask' xs' else np_compress mask' xs'
  | _, _ => []
  end.

(** [np.where(mask)[0]]: the indices where the mask holds, counted from [i]. *)
Fixpoint np_where (mask : list bool) (i : nat) : list nat :=
  match mask with
  | [] => []
  | b :: mask' => if b then i :: np_where mask' (S i) else np_where mask' (S i)
  end.

Definition np_any (mask : list bool) : bool := existsb id mask.
Definition np_all (mask : list bool) : bool := forallb id mask.

Definition Zsum (xs : list Z) : Z := fold_right Z.add 0%Z xs.

(** [np.mean] of an integer array, accumulated in floats: NaN ([None]) for
    an empty array. *)
Definition np_mean (xs : list Z) : option Q :=
  match xs with
  | [] => None
  | _ => Some (inject_Z (Zsum xs) / inject_Z (Z.of_nat (length xs)))
  end.

(** [np.interp] at one query point over the data points [(xp, fp)], [xp]
    increasing: the value of the first point at or below the first [xp],
    the value of the last point above the last [xp], and the line through
    the two neighbouring points between them. *)
Fixpoint interp_at (x : Z) (pts : list (Z * Q)) : Q :=
  match pts with
  | [] => 0
  | (x0, f0) :: rest =>
      if (x <=? x0)%Z then f0
      else
        match rest with
        | [] => f0
        | (x1, f1) :: _ =>
            if (x <? x1)%Z then
              (f1 - f0) / inject_Z (x1 - x0) * inject_Z (x - x0) + f0
            else interp_at x rest
        end
  end.

Definition np_interp (xs xp : list nat) (fp : list Q) : list Q :=
  let pts := zip (map Z.of_nat xp) fp in
  map (fun x => interp_at (Z.of_nat x) pts) xs.

(** ** Images *)

(** A three-dimensional integer array of shape [(height, width, channels)],
    as [np.array(Image.open(path))] gives it.  A two-dimensional array (a
    one-channel image) is the case [channels = 1]: the program indexes its
    third axis only in [build_red_to_green_map], where both fail alike. *)
Record ndarray : Type := mk_ndarray {
  height : nat;
  width : nat;
  channels : nat;
  item : nat -> nat -> nat -> Z
}.

(** [img[:, :, k].flatten()], row by row. *)
Definition channel (img : ndarray) (k : nat) : res (list Z) :=
  if (k <? channels img)%nat then
    ret (flat_map (fun y => map (fun x => item img y x k) (seq 0 (width img)))
                  (seq 0 (height img)))
  else raise IndexError.

(** One index along an axis of length [n]: negative indices count from the
    end, anything outside [-n, n) raises. *)
Definition axis_index (i : Z) (n : nat) : res nat :=
  if ((0 <=? i) && (i <? Z.of_nat n))%Z then ret (Z.to_nat i)
  else if ((- Z.of_nat n <=? i) && (i <? 0))%Z then ret (Z.to_nat (i + Z.of_nat n))
  else raise IndexError.

(** [img.astype(np.float64)[y, x]]: the channels of one pixel. *)
Definition getitem (img : ndarray) (y x : Z) : res (list Q) :=
  do yi <- axis_index y (height img);
  do xi <- axis_index x (width img);
  ret (map (fun k => inject_Z (item img yi xi k)) (seq 0 (channels img))).

(** ** bilinear_sample *)

(** The blend of the four neighbours of one channel, in exact arithmetic
    (in binary64: [B64.blend]). *)
Definition blend (fx fy p00 p10 p01 p11 : Q) : Q :=
  p00 * ((1 - fx) * (1 - fy)) + p10 * (fx * (1 - fy))
  + p01 * ((1 - fx) * fy) + p11 * (fx * fy).

Fixpoint blend_pixels (fx fy : Q) (p00 p10 p01 p11 : list Q) : list Q :=
  match p00, p10, p01, p11 with
  | a :: p00', b :: p10', c :: p01', d :: p11' =>
      blend fx fy a b c d :: blend_pixels fx fy p00' p10' p01' p11'
  | _, _, _, _ => []
  end.

(** [bilinear_sample] at one coordinate pair.  A coordinate that is still
    NaN after the clip is cast by [np.floor(x).astype(int)] to the least
    64-bit integer (x86-64), an index outside every axis numpy can hold:
    the lookup [img[y0, x0]] raises IndexError. *)
Definition bilinear_sample_at (img : ndarray) (x y : np_float) : res (list Q) :=
  let h := Z.of_nat (height img) in
  let w := Z.of_nat (width img) in
  match np_clip x 0 (inject_Z (w - 1)), np_clip y 0 (inject_Z (h - 1)) with
  | Fin x, Fin y =>
      let x0 := Qfloor x in
      let y0 := Qfloor y in
      let x1 := Z.min (x0 + 1) (w - 1) in
      let y1 := Z.min (y0 + 1) (h - 1) in
      let fx := x - inject_Z x0 in
      let fy := y - inject_Z y0 in
      do p00 <- getitem img y0 x0;
      do p10 <- getitem img y0 x1;
      do p01 <- getitem img y1 x0;
      do p11 <- getitem img y1 x1;
      ret (blend_pixels fx fy p00 p10 p01 p11)
  | _, _ => raise IndexError
  end.

(** [bilinear_sample] on the coordinate arrays of one column: one pixel per
    coordinate pair, and IndexError when any of the lookups raises. *)
Definition bilinear_sample (img : ndarray) (xs ys : list np_float)
  : res (list (list Q)) :=
  mapM (fun p => bilinear_sample_at img p.1 p.2) (zip xs ys).

(** ** build_red_to_green_map *)

(** The loop over [r]: the mean of the green values under the mask of the
    red value [r], NaN ([None]) when the mask is empty. *)
Definition red_to_green_means (red_channel green_channel : list Z)
  : list (option Q) :=
  map (fun r =>
         let mask := map (Z.eqb (Z.of_nat r)) red_channel in
         if np_any mask then np_mean (np_compress mask green_channel)
         else None)
      (seq 0 256).

(** [~np.isnan(a)]: the mask of the entries that are not NaN. *)
Definition np_not_isnan (a : list (option Q)) : list bool :=
  map (fun v : option Q => bool_decide (is_Some v)) a.

(** The second half of [build_red_to_green_map]: the missing (NaN) entries
    are interpolated from the valid ones. *)
Definition interpolate_missing (red_to_green : list (option Q)) : list Q :=
  let valid_mask := np_not_isnan red_to_green in
  (* [red_to_green[valid_mask]]: the entries that are not NaN, in order *)
  let valid_values := omap id red_to_green in
  if np_any valid_mask && negb (np_all valid_mask) then
    let valid_indices := np_where valid_mask 0 in
    let all_indices := seq 0 256 in
    np_interp all_indices valid_indices valid_values
  else if negb (np_any valid_mask) then
    np_linspace 0 255 256
  else
    (* every entry is valid: the array is returned as it is *)
    valid_values.

Definition build_red_to_green_map (erosion : ndarray) : res (list Q) :=
  do red_channel <- channel erosion 0;
  do green_channel <- channel erosion 1;
  ret (interpolate_missing (red_to_green_means red_channel green_channel)).

(** ** remap_gradient

    The exact reading of the function.  The arithmetic of lines 130 to 155
    is rational here: [round] sees the exact product, 0.001 is never
    absorbed, nothing overflows.  The binary64 reading of the same lines is
    in [Module B64] below. *)

Definition eps : Q := 1 # 1000.

(** The attack value of the output column [col]. *)
Definition column_attack (grad_w col : nat) : Q :=
  if (1 <? grad_w)%nat then
    inject_Z (Z.of_nat col) / inject_Z (Z.of_nat grad_w - 1)
  else 1 # 2.

Definition column_red_value (attack : Q) : Z :=
  Zclip (py_round (255 * (1 - attack))) 0 255.

Definition column_key_press (fade_in_duration attack : Q) : Q :=
  fade_in_duration * attack.

Definition column_key_release
    (fade_out_duration animation_duration key_press green_value : Q) : Q :=
  let fade_out_start := animation_duration - fade_out_duration in
  let release := green_value / 255 in
  let key_release := fade_out_start + release * fade_out_duration in
  if Qle_bool key_release (key_press + eps) then key_press + eps
  else key_release.

(** [red_to_green[red_value]]. *)
Definition table_lookup (red_to_green : list Q) (red_value : Z) : res Q :=
  do i <- axis_index red_value (length red_to_green);
  match red_to_green !! i with
  | Some v => ret v
  | None => raise IndexError
  end.

(** The source coordinates of every row of a column, from the table entry
    [green_value] of the column. *)
Definition column_coords (grad_h grad_w : nat)
    (fade_in_duration fade_out_duration animation_duration : Q)
    (green_value : Q) (col : nat) : list np_float * list np_float :=
  let attack := column_attack grad_w col in
  let key_press := column_key_press fade_in_duration attack in
  let key_release :=
    column_key_release fade_out_duration animation_duration key_press
                       green_value in
  let normalized_times := np_linspace 0 1 grad_h in
  let global_times :=
    map (fun t => key_press + t * (key_release - key_press)) normalized_times in
  let src_xs :=
    map (fun g => np_scale (np_clip (np_divide g animation_duration) 0 1)
                           (inject_Z (Z.of_nat grad_w - 1)))
        global_times in
  let src_ys :=
    map (fun t => Fin (t * inject_Z (Z.of_nat grad_h - 1))) normalized_times in
  (src_xs, src_ys).

(** The body of the loop over [col]. *)
Definition remap_column (gradient : ndarray) (red_to_green : list Q)
    (fade_in_duration fade_out_duration animation_duration : Q) (col : nat)
  : res (list (list Q)) :=
  let grad_h := height gradient in
  let grad_w := width gradient in
  let attack := column_attack grad_w col in
  let red_value := column_red_value attack in
  do green_value <- table_lookup red_to_green red_value;
  let src := column_coords grad_h grad_w fade_in_duration fade_out_duration
                           animation_duration green_value col in
  bilinear_sample gradient src.1 src.2.

(** The float result array, a list of rows of pixels. *)
Definition np_zeros (h w c : nat) : list (list (list Q)) :=
  replicate h (replicate w (replicate c 0)).

(** [result[:, col] = sampled]. *)
Definition set_column (col : nat) (sampled : list (list Q))
    (result : list (list (list Q))) : list (list (list Q)) :=
  zip_with (fun row px => <[col := px]> row) result sampled.

(** The loop over the columns [cols], from the array [result]. *)
Fixpoint remap_columns (gradient : ndarray) (red_to_green : list Q)
    (fade_in_duration fade_out_duration animation_duration : Q)
    (cols : list nat) (result : list (list (list Q)))
  : res (list (list (list Q))) :=
  match cols with
  | [] => ret result
  | col :: cols' =>
      do sampled <- remap_column gradient red_to_green fade_in_duration
                                 fade_out_duration animation_duration col;
      remap_columns gradient red_to_green fade_in_duration fade_out_duration
                    animation_duration cols' (set_column col sampled result)
  end.

(** The same loop with any body: [body col] stands for the array
    [sampled] that lines 130 to 158 compute for the column [col], in
    whatever arithmetic they compute it. *)
Fixpoint fill_columns (body : nat -> res (list (list Q)))
    (cols : list nat) (result : list (list (list Q)))
  : res (list (list (list Q))) :=
  match cols with
  | [] => ret result
  | col :: cols' =>
      do sampled <- body col;
      fill_columns body cols' (set_column col sampled result)
  end.

(** The cast [astype(np.uint8)]: truncation, then the low eight bits. *)
Definition astype_uint8 (v : Q) : Z := (Qtruncate v mod 256)%Z.

(** [np.clip(result, 0, 255).astype(np.uint8)] on one sample. *)
Definition quantize_sample (v : Q) : Z := astype_uint8 (Qclip v 0 255).

Definition quantize (result : list (list (list Q))) : list (list (list Z)) :=
  map (map (map quantize_sample)) result.

(** The float array before the final step (the diagnostic print of three
    table entries is left out). *)
Definition remap_result (gradient erosion : ndarray)
    (fade_in_duration fade_out_duration animation_duration : Q)
  : res (list (list (list Q))) :=
  let grad_h := height gradient in
  let grad_w := width gradient in
  let channels := channels gradient in
  do red_to_green <- build_red_to_green_map erosion;
  let result := np_zeros grad_h grad_w channels in
  remap_columns gradient red_to_green fade_in_duration fade_out_duration
                animation_duration (seq 0 grad_w) result.

Definition remap_gradient (gradient erosion : ndarray)
    (fade_in_duration fade_out_duration animation_duration : Q)
  : res (list (list (list Z))) :=
  do result <- remap_result gradient erosion fade_in_duration
                            fade_out_duration animation_duration;
  ret (quantize result).

(** ** The design document's words, as definitions to compare with *)

(** The erosion texture as a multiset of (red, green) samples. *)
Definition samples (erosion : ndarray) : list (Z * Z) :=
  flat_map (fun y => map (fun x => (item erosion y x 0%nat, item erosion y x 1%nat))
                         (seq 0 (width erosion)))
           (seq 0 (height erosion)).

(** The green values of the samples whose red channel equals [r]. *)
Definition greens_of (erosion : ndarray) (r : Z) : list Z :=
  map snd (filter (fun p => p.1 = r) (samples erosion)).

(** A red value is resolved when some sample has it. *)
Definition resolved (erosion : ndarray) (r : nat) : Prop :=
  exists y x, (y < height erosion)%nat /\ (x < width erosion)%nat /\
              item erosion y x 0%nat = Z.of_nat r.

(** The arithmetic mean of the green values under the red value [r]. *)
Definition mean_green (erosion : ndarray) (r : nat) : Q :=
  let gs := greens_of erosion (Z.of_nat r) in
  inject_Z (Zsum gs) / inject_Z (Z.of_nat (length gs)).

(** The resolved entries of a table [f] among the indices [rs], as data
    points (index, value). *)
Definition anchors (f : nat -> option Q) (rs : list nat) : list (Z * Q) :=
  omap (fun r => match f r with
                 | Some v => Some (Z.of_nat r, v)
                 | None => None
                 end) rs.

(** The line through [(lo, flo)] and [(hi, fhi)], at [i]. *)
Definition lerp_between (lo hi i : nat) (flo fhi : Q) : Q :=
  flo + (fhi - flo) * (inject_Z (Z.of_nat i - Z.of_nat lo)
                       / inject_Z (Z.of_nat hi - Z.of_nat lo)).


Definition spec_key_press (fade_in attack : Q) : Q := fade_in * attack.

Definition spec_key_release_raw (fade_out animation_duration green_value : Q) : Q :=
  (animation_duration - fade_out) + (green_value / 255) * fade_out.

Definition in_byte_range (v : Z) : Prop := (0 <= v <= 255)%Z.

(** An image whose every sample is a byte. *)
Definition byte_image (img : ndarray) : Prop :=
  forall y x k,
    (y < height img)%nat -> (x < width img)%nat -> (k < channels img)%nat ->
    (0 <= item img y x k <= 255)%Z.

(** The shape of an output array: rows, pixels per row, samples per pixel. *)
Definition has_shape {A} (h w c : nat) (a : list (list (list A))) : Prop :=
  length a = h /\
  Forall (fun row => length row = w /\ Forall (fun px => length px = c) row) a.

(** ** Concrete inputs *)

(** A 2 x 2 erosion texture, pixels (0,0), (0,0), (255,255), (255,255). *)
Definition erosion_2x2 : ndarray :=
  mk_ndarray 2 2 2 (fun y _ _ => if (y =? 0)%nat then 0%Z else 255%Z).

(** A 4 x 4 one-channel gradient, columns 0, 85, 170, 255. *)
Definition gradient_4x4 : ndarray :=
  mk_ndarray 4 4 1 (fun _ x _ => (85 * Z.of_nat x)%Z).

(** A 1 x 256 erosion texture with pixel (x, 255 - x) in column x. *)
Definition erosion_full : ndarray :=
  mk_ndarray 1 256 2
    (fun _ x k => if (k =? 0)%nat then Z.of_nat x else (255 - Z.of_nat x)%Z).

(** An empty two-channel erosion texture. *)
Definition erosion_empty : ndarray := mk_ndarray 0 0 2 (fun _ _ _ => 0%Z).

(** A one-channel erosion texture. *)
Definition erosion_gray : ndarray := mk_ndarray 1 1 1 (fun _ _ _ => 0%Z).

(** A 2 x 1 gradient with three channels. *)
Definition gradient_2x1 : ndarray :=
  mk_ndarray 1 2 3 (fun _ x k => (100 * Z.of_nat x + Z.of_nat k)%Z).

(** ** Further notions used by the statements below *)

(** The pixel [(y, x)] of an image, as floats. *)
Definition pixel (img : ndarray) (y x : nat) : list Q :=
  map (fun k => inject_Z (item img y x k)) (seq 0 (channels img)).

(** The pixel [(row, col)] of an array of rows of pixels. *)
Definition output_pixel {A} (a : list (list (list A))) (row col : nat)
  : option (list A) :=
  match a !! row with
  | Some r => r !! col
  | None => None
  end.

(** The 2 x 2 erosion texture [erosion_2x2], transposed. *)
Definition erosion_2x2_T : ndarray :=
  mk_ndarray 2 2 2 (fun _ x _ => if (x =? 0)%nat then 0%Z else 255%Z).

(** A 2 x 3 erosion texture whose pixels all have the red value 7 and the
    green values 10, 20, 30, 40, 50, 60. *)
Definition erosion_red7 : ndarray :=
  mk_ndarray 2 3 2
    (fun y x k => if (k =? 0)%nat then 7%Z
                  else (10 * (Z.of_nat (3 * y + x) + 1))%Z).

(** ** The binary64 reading of the resampler

    Where a property depends on the rounding of binary64 (a tie of
    [round], the floor of [src_y], the absorption of 0.001, the last bits of
    a blend) the exact reading above and the program part ways.  The
    arithmetic of the resampler is therefore also given in IEEE binary64,
    with the operations of the standard library's specification of
    floating-point arithmetic ([SpecFloat], precision 53, [emax] 1024,
    rounding to nearest even). *)

Module B64.

Definition b64 : Type := SpecFloat.spec_float.

Definition prec : Z := 53.
Definition emax : Z := 1024.

Definition add : b64 -> b64 -> b64 := SpecFloat.SFadd prec emax.
Definition sub : b64 -> b64 -> b64 := SpecFloat.SFsub prec emax.
Definition mul : b64 -> b64 -> b64 := SpecFloat.SFmul prec emax.
Definition div : b64 -> b64 -> b64 := SpecFloat.SFdiv prec emax.
(** The conversion of a Python int to a float. *)
Definition of_Z (z : Z) : b64 := SpecFloat.binary_normalize prec emax z 0 false.

Definition zero : b64 := of_Z 0.
Definition one : b64 := of_Z 1.

(** The literals [0.5] and [0.001]: the doubles nearest to 1/2 and 1/1000. *)
Definition half : b64 := div (of_Z 1) (of_Z 2).
Definition eps : b64 := div (of_Z 1) (of_Z 1000).

Definition is_nan (x : b64) : bool :=
  match x with
  | SpecFloat.S754_nan => true
  | _ => false
  end.

(** The real number a float stands for. *)
Definition value (x : b64) : np_float :=
  match x with
  | SpecFloat.S754_zero _ => Fin 0
  | SpecFloat.S754_infinity false => PosInf
  | SpecFloat.S754_infinity true => NegInf
  | SpecFloat.S754_nan => NaN
  | SpecFloat.S754_finite s m e =>
      let n := if s then Zneg m else Zpos m in
      Fin (if (0 <=? e)%Z then inject_Z (n * 2 ^ e)
           else Qmake n (Z.to_pos (2 ^ (- e))))
  end.

(** The comparisons [<], [<=] and [==] of floats: those of their values,
    false whenever an operand is NaN. *)
Definition ltb (x y : b64) : bool :=
  match value x, value y with
  | Fin a, Fin b => Qlt_bool a b
  | NegInf, Fin _ | NegInf, PosInf | Fin _, PosInf => true
  | _, _ => false
  end.

Definition leb (x y : b64) : bool :=
  match value x, value y with
  | Fin a, Fin b => Qle_bool a b
  | NegInf, Fin _ | NegInf, PosInf | Fin _, PosInf => true
  | NegInf, NegInf | PosInf, PosInf => true
  | _, _ => false
  end.

Definition eqb (x y : b64) : bool :=
  match value x, value y with
  | Fin a, Fin b => Qeq_bool a b
  | NegInf, NegInf | PosInf, PosInf => true
  | _, _ => false
  end.

(** [np.clip(x, lo, hi)], that is [minimum(maximum(x, lo), hi)]: NaN goes
    through. *)
Definition np_clip (x lo hi : b64) : b64 :=
  if is_nan x then x
  else
    let m := if ltb x lo then lo else x in
    if ltb hi m then hi else m.

(** [round(x)] of Python on a float: the nearest integer of its value, ties
    to even; it raises ([None]) on NaN and on the infinities. *)
Definition py_round_float (x : b64) : option Z :=
  match value x with
  | Fin q => Some (py_round q)
  | _ => None
  end.

(** [np.linspace(start, stop, num)], as numpy computes it: the indices
    times the step (or, when the step is zero, divided by [num - 1] and
    multiplied by the difference), plus [start], and the last entry set to
    [stop]. *)
Definition np_linspace (start stop : b64) (num : nat) : list b64 :=
  let div_ := of_Z (Z.of_nat num - 1) in
  let delta := sub stop start in
  let y := map (fun i => of_Z (Z.of_nat i)) (seq 0 num) in
  let y :=
    if (1 <? num)%nat then
      let step := div delta div_ in
      if eqb step zero then map (fun v => mul (div v div_) delta) y
      else map (fun v => mul v step) y
    else map (fun v => mul v delta) y in
  let y := map (fun v => add v start) y in
  if (1 <? num)%nat then <[(num - 1)%nat := stop]> y else y.

(** Lines 130 to 155 of [remap_gradient].  The quotient of two Python
    ints is the float nearest to the exact quotient; for [grad_w] up to
    [2 ^ 53] both ints are floats and it is their float quotient. *)
Definition column_attack (grad_w col : nat) : b64 :=
  if (1 <? grad_w)%nat then
    div (of_Z (Z.of_nat col)) (of_Z (Z.of_nat grad_w - 1))
  else half.

Definition column_red_value (attack : b64) : option Z :=
  option_map (fun r => Zclip r 0 255)
             (py_round_float (mul (of_Z 255) (sub one attack))).

Definition column_key_press (fade_in_duration attack : b64) : b64 :=
  mul fade_in_duration attack.

Definition column_key_release
    (fade_out_duration animation_duration key_press green_value : b64) : b64 :=
  let fade_out_start := sub animation_duration fade_out_duration in
  let release := div green_value (of_Z 255) in
  let key_release := add fade_out_start (mul release fade_out_duration) in
  if leb key_release (add key_press eps) then add key_press eps
  else key_release.

Definition column_coords (grad_h grad_w : nat)
    (fade_in_duration fade_out_duration animation_duration : b64)
    (green_value : b64) (col : nat) : list b64 * list b64 :=
  let attack := column_attack grad_w col in
  let key_press := column_key_press fade_in_duration attack in
  let key_release :=
    column_key_release fade_out_duration animation_duration key_press
                       green_value in
  let normalized_times := np_linspace zero one grad_h in
  let global_times :=
    map (fun t => add key_press (mul t (sub key_release key_press)))
        normalized_times in
  let src_xs :=
    map (fun g => mul (np_clip (div g animation_duration) zero one)
                      (of_Z (Z.of_nat grad_w - 1)))
        global_times in
  let src_ys :=
    map (fun t => mul t (of_Z (Z.of_nat grad_h - 1))) normalized_times in
  (src_xs, src_ys).

(** [bilinear_sample] (lines 25 to 53) at one coordinate pair. *)
Definition getitem (img : ndarray) (y x : Z) : res (list b64) :=
  do yi <- axis_index y (height img);
  do xi <- axis_index x (width img);
  ret (map (fun k => of_Z (item img yi xi k)) (seq 0 (channels img))).

Definition blend (fx fy p00 p10 p01 p11 : b64) : b64 :=
  let w00 := mul (sub one fx) (sub one fy) in
  let w10 := mul fx (sub one fy) in
  let w01 := mul (sub one fx) fy in
  let w11 := mul fx fy in
  add (add (add (mul p00 w00) (mul p10 w10)) (mul p01 w01)) (mul p11 w11).

Fixpoint blend_pixels (fx fy : b64) (p00 p10 p01 p11 : list b64) : list b64 :=
  match p00, p10, p01, p11 with
  | a :: p00', b :: p10', c :: p01', d :: p11' =>
      blend fx fy a b c d :: blend_pixels fx fy p00' p10' p01' p11'
  | _, _, _, _ => []
  end.

Definition bilinear_sample_at (img : ndarray) (x y : b64) : res (list b64) :=
  let h := Z.of_nat (height img) in
  let w := Z.of_nat (width img) in
  let x := np_clip x zero (of_Z (w - 1)) in
  let y := np_clip y zero (of_Z (h - 1)) in
  match value x, value y with
  | Fin qx, Fin qy =>
      let x0 := Qfloor qx in
      let y0 := Qfloor qy in
      let x1 := Z.min (x0 + 1) (w - 1) in
      let y1 := Z.min (y0 + 1) (h - 1) in
      let fx := sub x (of_Z x0) in
      let fy := sub y (of_Z y0) in
      do p00 <- getitem img y0 x0;
      do p10 <- getitem img y0 x1;
      do p01 <- getitem img y1 x0;
      do p11 <- getitem img y1 x1;
      ret (blend_pixels fx fy p00 p10 p01 p11)
  | _, _ => raise IndexError
  end.

(** Entry [i] of [np.linspace(start, stop, num)] before the last entry is
    overwritten by [stop]. *)
Definition linspace_entry (start stop : b64) (num i : nat) : b64 :=
  let div_ := of_Z (Z.of_nat num - 1) in
  let delta := sub stop start in
  let v := of_Z (Z.of_nat i) in
  add
    (if (1 <? num)%nat then
       let step := div delta div_ in
       if eqb step zero then mul (div v div_) delta
       else mul v step
     else mul v delta)
    start.

(** Classes of floats that the proofs distinguish: neither NaN nor
    infinite; a zero of either sign; finite with an exponent of at least
    [emin], or infinite; a zero or a finite float below [2 ^ D] in absolute
    value. *)
Definition not_nan_inf (x : b64) : Prop :=
  match x with
  | SpecFloat.S754_zero _ | SpecFloat.S754_finite _ _ _ => True
  | _ => False
  end.

Definition is_zero (x : b64) : Prop :=
  match x with
  | SpecFloat.S754_zero _ => True
  | _ => False
  end.

Definition at_least (emin : Z) (x : b64) : Prop :=
  match x with
  | SpecFloat.S754_finite _ _ e => (emin <= e)%Z
  | SpecFloat.S754_infinity _ => True
  | _ => False
  end.

Definition mag (D : Z) (x : b64) : Prop :=
  match x with
  | SpecFloat.S754_zero _ => True
  | SpecFloat.S754_finite _ m e => (Z.pos m < 2 ^ (D - e))%Z
  | _ => False
  end.

End B64.


(** * Proofs *)

(** ** Rationals *)

Lemma Qlt_bool_iff a b : Qlt_bool a b = true <-> a < b.
Proof.
  unfold Qlt_bool. rewrite negb_true_iff, <- not_true_iff_false, Qle_bool_iff.
  split; [apply Qnot_le_lt | apply Qlt_not_le].
Qed.

Lemma Qlt_bool_false a b : Qlt_bool a b = false <-> b <= a.
Proof.
  unfold Qlt_bool. rewrite negb_false_iff. apply Qle_bool_iff.
Qed.

Ltac case_Qlt :=
  match goal with
  | |- context [Qlt_bool ?a ?b] =>
      let E := fresh "E" in
      destruct (Qlt_bool a b) eqn:E;
      [apply Qlt_bool_iff in E | apply Qlt_bool_false in E]
  | |- context [Qle_bool ?a ?b] =>
      let E := fresh "E" in
      destruct (Qle_bool a b) eqn:E;
      [apply Qle_bool_iff in E
      | apply not_true_iff_false in E; rewrite Qle_bool_iff in E;
        apply Qnot_le_lt in E]
  end.

Lemma Qclip_bounds x lo hi : lo <= hi -> lo <= Qclip x lo hi <= hi.
Proof.
  intros H. unfold Qclip.
  destruct (Qlt_bool x lo) eqn:E1; cbv zeta;
    [apply Qlt_bool_iff in E1 | apply Qlt_bool_false in E1];
    case_Qlt; lra.
Qed.

Lemma Qclip_id x lo hi : lo <= x <= hi -> Qclip x lo hi = x.
Proof.
  intros H. unfold Qclip.
  destruct (Qlt_bool x lo) eqn:E1; cbv zeta;
    [apply Qlt_bool_iff in E1; exfalso; lra | apply Qlt_bool_false in E1].
  destruct (Qlt_bool hi x) eqn:E2;
    [apply Qlt_bool_iff in E2; exfalso; lra | reflexivity].
Qed.

Lemma Qfloor_range (x : Q) (n : Z) :
  0 <= x <= inject_Z n -> (0 <= Qfloor x <= n)%Z.
Proof.
  intros [H0 Hn]. split.
  - change 0%Z with (Qfloor 0). now apply Qfloor_resp_le.
  - rewrite <- (Qfloor_Z n). now apply Qfloor_resp_le.
Qed.

Lemma Qfrac_range (x : Q) : 0 <= x - inject_Z (Qfloor x) < 1.
Proof.
  pose proof (Qfloor_le x). pose proof (Qlt_floor x) as H1.
  rewrite inject_Z_plus in H1. change (inject_Z 1) with 1 in H1. lra.
Qed.

Lemma lerp_range (t a b lo hi : Q) :
  0 <= t <= 1 -> lo <= a <= hi -> lo <= b <= hi ->
  lo <= a * (1 - t) + b * t <= hi.
Proof. intros Ht Ha Hb. nra. Qed.


(** ** Indexing and bilinear sampling *)

Lemma bind_inr {A B} (m : res A) (k : A -> res B) (b : B) :
  bind m k = inr b -> exists a, m = inr a /\ k a = inr b.
Proof. destruct m as [e|a]; simpl; [discriminate | eauto]. Qed.

Lemma axis_index_in_range (i : Z) (n : nat) :
  (0 <= i < Z.of_nat n)%Z -> axis_index i n = inr (Z.to_nat i).
Proof.
  intros [H0 Hn]. unfold axis_index.
  apply Z.leb_le in H0. apply Z.ltb_lt in Hn. now rewrite H0, Hn.
Qed.

Lemma getitem_in_range (img : ndarray) (y x : Z) :
  (0 <= y < Z.of_nat (height img))%Z -> (0 <= x < Z.of_nat (width img))%Z ->
  getitem img y x =
    inr (map (fun k => inject_Z (item img (Z.to_nat y) (Z.to_nat x) k))
             (seq 0 (channels img))).
Proof.
  intros Hy Hx. unfold getitem.
  now rewrite (axis_index_in_range _ _ Hy), (axis_index_in_range _ _ Hx).
Qed.

Lemma blend_pixels_map {K} (fx fy : Q) (f00 f10 f01 f11 : K -> Q) (ks : list K) :
  blend_pixels fx fy (map f00 ks) (map f10 ks) (map f01 ks) (map f11 ks)
  = map (fun k => blend fx fy (f00 k) (f10 k) (f01 k) (f11 k)) ks.
Proof. induction ks as [|k ks IH]; simpl; [reflexivity | now rewrite IH]. Qed.

Lemma inject_Z_byte (z : Z) : (0 <= z <= 255)%Z -> 0 <= inject_Z z <= 255.
Proof.
  intros [H0 H1]. split.
  - change 0 with (inject_Z 0). now rewrite <- Zle_Qle.
  - change 255 with (inject_Z 255). now rewrite <- Zle_Qle.
Qed.

(** The neighbour indices of a clamped coordinate lie on the axis. *)
Lemma neighbours_in_range (n : nat) (x : Q) :
  (1 <= n)%nat ->
  let c := Qclip x 0 (inject_Z (Z.of_nat n - 1)) in
  (0 <= Qfloor c < Z.of_nat n)%Z /\
  (0 <= Z.min (Qfloor c + 1) (Z.of_nat n - 1) < Z.of_nat n)%Z.
Proof.
  intros Hn c.
  assert (Hc : 0 <= c <= inject_Z (Z.of_nat n - 1)).
  { apply Qclip_bounds. change 0 with (inject_Z 0). rewrite <- Zle_Qle. lia. }
  apply Qfloor_range in Hc. lia.
Qed.






(** ** The red-to-green table *)

Lemma channel_ok (e : ndarray) (k : nat) :
  (k < channels e)%nat ->
  channel e k =
    inr (flat_map (fun y => map (fun x => item e y x k) (seq 0 (width e)))
                  (seq 0 (height e))).
Proof.
  intros Hk. unfold channel. apply Nat.ltb_lt in Hk. now rewrite Hk.
Qed.

Lemma channel_raises (e : ndarray) (k : nat) :
  (channels e <= k)%nat -> channel e k = inl IndexError.
Proof.
  intros Hk. unfold channel. apply Nat.ltb_ge in Hk. now rewrite Hk.
Qed.

Lemma flat_map_map_fst (e : ndarray) (ys : list nat) :
  flat_map (fun y => map (fun x => item e y x 0%nat) (seq 0 (width e))) ys
  = map fst (flat_map (fun y => map (fun x => (item e y x 0%nat, item e y x 1%nat))
                                    (seq 0 (width e))) ys).
Proof.
  induction ys as [|y ys IH]; simpl; [reflexivity|].
  now rewrite map_app, map_map, IH.
Qed.

Lemma flat_map_map_snd (e : ndarray) (ys : list nat) :
  flat_map (fun y => map (fun x => item e y x 1%nat) (seq 0 (width e))) ys
  = map snd (flat_map (fun y => map (fun x => (item e y x 0%nat, item e y x 1%nat))
                                    (seq 0 (width e))) ys).
Proof.
  induction ys as [|y ys IH]; simpl; [reflexivity|].
  now rewrite map_app, map_map, IH.
Qed.

(** The mask of a red value selects the green values of its samples. *)
Lemma compress_mask (r : Z) (l : list (Z * Z)) :
  np_compress (map (Z.eqb r) (map fst l)) (map snd l)
  = map snd (filter (fun p => p.1 = r) l).
Proof.
  induction l as [|[a b] l IH]; simpl; [reflexivity|].
  destruct (Z.eqb_spec r a) as [->|Hne].
  - rewrite filter_cons_True by reflexivity. simpl. now rewrite IH.
  - rewrite filter_cons_False by (simpl; congruence). exact IH.
Qed.

Lemma any_mask (r : Z) (l : list (Z * Z)) :
  np_any (map (Z.eqb r) (map fst l)) = false ->
  filter (fun p => p.1 = r) l = [].
Proof.
  induction l as [|[a b] l IH]; simpl; [reflexivity|].
  destruct (Z.eqb_spec r a) as [->|Hne]; simpl; [discriminate|].
  intros H. rewrite filter_cons_False by (simpl; congruence). auto.
Qed.

(** The first half of the function computes, for every red value, the mean
    of the green values of its samples. *)
Lemma means_spec (e : ndarray) :
  red_to_green_means (map fst (samples e)) (map snd (samples e))
  = map (fun r => np_mean (greens_of e (Z.of_nat r))) (seq 0 256).
Proof.
  unfold red_to_green_means. apply map_ext. intros r. cbv zeta.
  unfold greens_of. rewrite compress_mask.
  destruct (np_any _) eqn:E; [reflexivity|].
  apply any_mask in E. now rewrite E.
Qed.

Lemma build_ok (e : ndarray) :
  (2 <= channels e)%nat ->
  build_red_to_green_map e =
    inr (interpolate_missing
           (map (fun r => np_mean (greens_of e (Z.of_nat r))) (seq 0 256))).
Proof.
  intros Hc. unfold build_red_to_green_map.
  rewrite !channel_ok by lia. cbn [bind].
  rewrite flat_map_map_fst, flat_map_map_snd.
  fold (samples e). now rewrite means_spec.
Qed.

Lemma build_raises (e : ndarray) :
  (channels e < 2)%nat -> build_red_to_green_map e = inl IndexError.
Proof.
  intros Hc. unfold build_red_to_green_map.
  destruct (channels e) as [|[|c]] eqn:Ec; [| |lia].
  - rewrite channel_raises by lia. reflexivity.
  - rewrite (channel_ok e 0) by lia. simpl bind.
    rewrite channel_raises by lia. reflexivity.
Qed.

Lemma in_samples (e : ndarray) (a b : Z) :
  In (a, b) (samples e) <->
  exists y x, (y < height e)%nat /\ (x < width e)%nat /\
              a = item e y x 0%nat /\ b = item e y x 1%nat.
Proof.
  unfold samples. rewrite in_flat_map. split.
  - intros (y & Hy & Hin). apply in_map_iff in Hin as (x & Heq & Hx).
    apply in_seq in Hy, Hx. inversion Heq; subst. exists y, x. repeat split; lia.
  - intros (y & x & Hy & Hx & -> & ->). exists y. split.
    + apply in_seq. lia.
    + apply in_map_iff. exists x. split; [reflexivity | apply in_seq; lia].
Qed.

Lemma greens_resolved (e : ndarray) (r : nat) :
  greens_of e (Z.of_nat r) <> [] <-> resolved e r.
Proof.
  unfold greens_of, resolved. split.
  - intros Hne.
    destruct (filter (fun p => p.1 = Z.of_nat r) (samples e)) as [|[a b] l] eqn:E;
      [contradiction|].
    assert (Hin : (a, b) ∈ filter (fun p => p.1 = Z.of_nat r) (samples e))
      by (rewrite E; left).
    apply list_elem_of_filter in Hin as [Ha Hin]. simpl in Ha.
    apply list_elem_of_In, in_samples in Hin as (y & x & Hy & Hx & -> & _).
    eauto.
  - intros (y & x & Hy & Hx & Hr) Hnil.
    apply map_eq_nil in Hnil.
    assert (Hin : (item e y x 0%nat, item e y x 1%nat)
                  ∈ filter (fun p => p.1 = Z.of_nat r) (samples e)).
    { apply list_elem_of_filter. split; [exact Hr|].
      apply list_elem_of_In, in_samples. eauto 7. }
    rewrite Hnil in Hin. inversion Hin.
Qed.

Lemma np_mean_some (gs : list Z) :
  gs <> [] ->
  np_mean gs = Some (inject_Z (Zsum gs) / inject_Z (Z.of_nat (length gs))).
Proof. destruct gs; [contradiction | reflexivity]. Qed.

Lemma entry_resolved (e : ndarray) (r : nat) :
  resolved e r -> np_mean (greens_of e (Z.of_nat r)) = Some (mean_green e r).
Proof.
  intros H. apply greens_resolved in H. now rewrite np_mean_some.
Qed.

Lemma entry_unresolved (e : ndarray) (r : nat) :
  ~ resolved e r -> np_mean (greens_of e (Z.of_nat r)) = None.
Proof.
  intros H. destruct (greens_of e (Z.of_nat r)) eqn:E; [reflexivity|].
  exfalso. apply H, greens_resolved. rewrite E. discriminate.
Qed.

Lemma entry_some_resolved (e : ndarray) (r : nat) (v : Q) :
  np_mean (greens_of e (Z.of_nat r)) = Some v -> resolved e r.
Proof.
  intros H. apply greens_resolved. intros E. rewrite E in H. discriminate.
Qed.

Lemma entry_none_unresolved (e : ndarray) (r : nat) :
  np_mean (greens_of e (Z.of_nat r)) = None -> ~ resolved e r.
Proof.
  intros H Hr. apply entry_resolved in Hr. congruence.
Qed.

(** *** The masks of a table given by a function of the index *)

Section Table.
Variable f : nat -> option Q.

Lemma any_valid (rs : list nat) :
  np_any (np_not_isnan (map f rs)) = true <->
  exists r, r ∈ rs /\ is_Some (f r).
Proof.
  unfold np_any, np_not_isnan. induction rs as [|r rs IH]; simpl.
  - split; [discriminate | intros (r & Hr & _); inversion Hr].
  - rewrite orb_true_iff, IH. unfold id. rewrite bool_decide_eq_true. split.
    + intros [H | (r' & Hr' & H)]; [exists r | exists r'];
        split; auto; [left | now right].
    + intros (r' & Hr' & H). apply elem_of_cons in Hr' as [->|Hr']; eauto.
Qed.

Lemma all_valid (rs : list nat) :
  np_all (np_not_isnan (map f rs)) = true <->
  forall r, r ∈ rs -> is_Some (f r).
Proof.
  unfold np_all, np_not_isnan. induction rs as [|r rs IH]; simpl.
  - split; [intros _ r Hr; inversion Hr | reflexivity].
  - rewrite andb_true_iff, IH. unfold id. rewrite bool_decide_eq_true. split.
    + intros [H Hall] r' Hr'. apply elem_of_cons in Hr' as [->|Hr']; auto.
    + intros H. split; [apply H; left | intros r' Hr'; apply H; now right].
Qed.

Lemma not_all_valid (rs : list nat) :
  np_all (np_not_isnan (map f rs)) = false ->
  exists r, r ∈ rs /\ f r = None.
Proof.
  unfold np_all, np_not_isnan.
  induction rs as [|r rs IH]; simpl; [discriminate|].
  unfold id at 1. destruct (f r) as [v|] eqn:E.
  - rewrite bool_decide_eq_true_2 by eauto. simpl. intros H.
    destruct (IH H) as (r' & Hr' & Hn). exists r'. split; [now right | exact Hn].
  - intros _. exists r. split; [left | exact E].
Qed.

Lemma omap_id_map (rs : list nat) : omap id (map f rs) = omap f rs.
Proof.
  induction rs as [|r rs IH]; [reflexivity|]. csimpl.
  destruct (f r); now rewrite IH.
Qed.

Lemma omap_all_valid (g : nat -> Q) (rs : list nat) :
  (forall r, r ∈ rs -> f r = Some (g r)) -> omap f rs = map g rs.
Proof.
  induction rs as [|r rs IH]; intros H; [reflexivity|]. csimpl.
  rewrite (H r) by left. rewrite IH; [reflexivity|].
  intros r' Hr'. apply H. now right.
Qed.

Lemma omap_none_valid (rs : list nat) :
  (forall r, r ∈ rs -> f r = None) -> anchors f rs = [].
Proof.
  unfold anchors. induction rs as [|r rs IH]; intros H; [reflexivity|].
  csimpl. rewrite (H r) by left. apply IH. intros r' Hr'. apply H. now right.
Qed.

(** The data points handed to [np.interp]. *)
Lemma pts_anchors (a n : nat) :
  zip (map Z.of_nat (np_where (np_not_isnan (map f (seq a n))) a))
      (omap id (map f (seq a n)))
  = anchors f (seq a n).
Proof.
  unfold anchors, np_not_isnan. revert a.
  induction n as [|n IH]; intros a; [reflexivity|].
  csimpl. destruct (f a) as [v|] eqn:E; csimpl.
  - f_equal. apply IH.
  - apply IH.
Qed.

Lemma anchors_app (l1 l2 : list nat) :
  anchors f (l1 ++ l2) = anchors f l1 ++ anchors f l2.
Proof. apply omap_app. Qed.

Lemma anchors_cons_some (r : nat) (v : Q) (rs : list nat) :
  f r = Some v -> anchors f (r :: rs) = (Z.of_nat r, v) :: anchors f rs.
Proof. intros H. unfold anchors. csimpl. now rewrite H. Qed.

Lemma anchors_below (a n : nat) :
  Forall (fun p => (p.1 < Z.of_nat (a + n))%Z) (anchors f (seq a n)).
Proof.
  apply Forall_forall. intros [x v] Hin.
  apply list_elem_of_omap in Hin as (r & Hr & Hf).
  apply elem_of_seq in Hr. destruct (f r); inversion Hf; subst. simpl. lia.
Qed.
End Table.

(** *** Linear interpolation over the data points *)

Lemma interp_skip (x : Z) (before : list (Z * Q)) (q : Z * Q) (rest : list (Z * Q)) :
  Forall (fun p => (p.1 < x)%Z) before -> (q.1 <= x)%Z ->
  interp_at x (before ++ q :: rest) = interp_at x (q :: rest).
Proof.
  intros Hb Hq. induction Hb as [|[x0 f0] before Hx0 Hb IH]; [reflexivity|].
  simpl in Hx0. change (((x0, f0) :: before) ++ q :: rest)
    with ((x0, f0) :: (before ++ q :: rest)).
  cbn [interp_at]. destruct (Z.leb_spec x x0) as [Hle|_]; [lia|].
  destruct before as [|[x1 f1] before'].
  - destruct q as [x1 f1]. simpl in Hq. cbn [app].
    destruct (Z.ltb_spec x x1) as [Hlt|_]; [lia | reflexivity].
  - cbn [app]. inversion Hb as [|? ? Hx1 _]; subst. simpl in Hx1.
    destruct (Z.ltb_spec x x1) as [Hlt|_]; [lia | exact IH].
Qed.

Lemma interp_first (x x0 : Z) (f0 : Q) (rest : list (Z * Q)) :
  (x <= x0)%Z -> interp_at x ((x0, f0) :: rest) = f0.
Proof. intros H. cbn [interp_at]. apply Z.leb_le in H. now rewrite H. Qed.

Lemma interp_last (x x0 : Z) (f0 : Q) :
  interp_at x [(x0, f0)] = f0.
Proof. cbn [interp_at]. now destruct (x <=? x0)%Z. Qed.

Lemma interp_segment (x x0 x1 : Z) (f0 f1 : Q) (rest : list (Z * Q)) :
  (x0 < x < x1)%Z ->
  interp_at x ((x0, f0) :: (x1, f1) :: rest)
  = (f1 - f0) / inject_Z (x1 - x0) * inject_Z (x - x0) + f0.
Proof.
  intros [H0 H1]. cbn [interp_at].
  destruct (Z.leb_spec x x0); [lia|].
  destruct (Z.ltb_spec x x1); [reflexivity | lia].
Qed.

Lemma segment_range (x x0 x1 : Z) (f0 f1 lo hi : Q) :
  (x0 < x < x1)%Z -> lo <= f0 <= hi -> lo <= f1 <= hi ->
  lo <= (f1 - f0) / inject_Z (x1 - x0) * inject_Z (x - x0) + f0 <= hi.
Proof.
  intros [H0 H1] Hf0 Hf1.
  assert (Hd : 0 < inject_Z (x1 - x0))
    by (change 0 with (inject_Z 0); rewrite <- Zlt_Qlt; lia).
  assert (Hn : 0 <= inject_Z (x - x0) <= inject_Z (x1 - x0))
    by (split; [change 0 with (inject_Z 0)|]; rewrite <- Zle_Qle; lia).
  set (d := inject_Z (x1 - x0)) in *. set (n := inject_Z (x - x0)) in *.
  assert (Ht : 0 <= n / d <= 1).
  { split.
    - apply Qle_shift_div_l; [exact Hd | lra].
    - apply Qle_shift_div_r; [exact Hd | lra]. }
  assert (E : (f1 - f0) / d * n + f0 == f0 * (1 - n / d) + f1 * (n / d))
    by (field; lra).
  rewrite E. now apply lerp_range.
Qed.

Lemma interp_range (x : Z) (pts : list (Z * Q)) (lo hi : Q) :
  pts <> [] -> Forall (fun p => lo <= p.2 <= hi) pts ->
  lo <= interp_at x pts <= hi.
Proof.
  induction pts as [|[x0 f0] rest IH]; intros Hne Hall; [contradiction|].
  inversion Hall as [|? ? Hf0 Hrest]; subst. simpl in Hf0. cbn [interp_at].
  destruct (Z.leb_spec x x0) as [_|Hx0]; [exact Hf0|].
  destruct rest as [|[x1 f1] rest']; [exact Hf0|].
  destruct (Z.ltb_spec x x1) as [Hx1|_].
  - inversion Hrest as [|? ? Hf1 _]; subst. simpl in Hf1.
    now apply segment_range.
  - apply IH; [discriminate | exact Hrest].
Qed.

Lemma seq_split (n k : nat) :
  (k < n)%nat -> seq 0 n = seq 0 k ++ k :: seq (S k) (n - S k).
Proof.
  intros Hk. replace n with (k + S (n - S k))%nat at 1 by lia.
  now rewrite seq_app.
Qed.

Lemma seq_split_from (a n k : nat) :
  (k < n)%nat -> seq a n = seq a k ++ (a + k)%nat :: seq (S (a + k)) (n - S k).
Proof.
  intros Hk. replace n with (k + S (n - S k))%nat at 1 by lia.
  now rewrite seq_app.
Qed.

Section Anchors.
Variable f : nat -> option Q.
Variable n : nat.

(** A resolved index keeps its own value. *)
Lemma anchors_hit (i : nat) (v : Q) :
  (i < n)%nat -> f i = Some v ->
  interp_at (Z.of_nat i) (anchors f (seq 0 n)) = v.
Proof.
  intros Hi Hf. rewrite (seq_split n i Hi), anchors_app.
  rewrite (anchors_cons_some f i v) by exact Hf.
  rewrite interp_skip; [apply interp_first; lia | | simpl; lia].
  apply (anchors_below f 0 i).
Qed.

(** Between two neighbouring resolved indices: the line through them. *)
Lemma anchors_between (lo hi i : nat) (a b : Q) :
  (lo < i < hi)%nat -> (hi < n)%nat ->
  f lo = Some a -> f hi = Some b ->
  (forall j, (lo < j < hi)%nat -> f j = None) ->
  interp_at (Z.of_nat i) (anchors f (seq 0 n))
  = (b - a) / inject_Z (Z.of_nat hi - Z.of_nat lo)
    * inject_Z (Z.of_nat i - Z.of_nat lo) + a.
Proof.
  intros Hi Hhi Hlo Hb Hgap.
  rewrite (seq_split n lo) by lia. rewrite anchors_app.
  rewrite (seq_split_from (S lo) (n - S lo) (hi - S lo)) by lia.
  replace (S lo + (hi - S lo))%nat with hi by lia.
  rewrite (anchors_cons_some f lo a) by exact Hlo.
  rewrite anchors_app.
  rewrite (omap_none_valid f (seq (S lo) (hi - S lo))).
  2:{ intros r Hr. apply elem_of_seq in Hr. apply Hgap. lia. }
  cbn [app]. rewrite (anchors_cons_some f hi b) by exact Hb.
  rewrite interp_skip; [apply interp_segment; lia | | simpl; lia].
  eapply Forall_impl; [apply (anchors_below f 0 lo)|].
  intros p Hp. simpl in Hp. lia.
Qed.

(** At or below the lowest resolved index: its value. *)
Lemma anchors_flat_left (hi i : nat) (b : Q) :
  (i <= hi)%nat -> (hi < n)%nat -> f hi = Some b ->
  (forall j, (j < hi)%nat -> f j = None) ->
  interp_at (Z.of_nat i) (anchors f (seq 0 n)) = b.
Proof.
  intros Hi Hhi Hb Hgap.
  rewrite (seq_split n hi) by lia. rewrite anchors_app.
  rewrite (omap_none_valid f (seq 0 hi)).
  2:{ intros r Hr. apply elem_of_seq in Hr. apply Hgap. lia. }
  cbn [app]. rewrite (anchors_cons_some f hi b) by exact Hb.
  apply interp_first. lia.
Qed.

(** At or above the highest resolved index: its value. *)
Lemma anchors_flat_right (lo i : nat) (a : Q) :
  (lo <= i)%nat -> (lo < n)%nat -> f lo = Some a ->
  (forall j, (lo < j < n)%nat -> f j = None) ->
  interp_at (Z.of_nat i) (anchors f (seq 0 n)) = a.
Proof.
  intros Hi Hlo Ha Hgap.
  rewrite (seq_split n lo) by lia. rewrite anchors_app.
  rewrite (anchors_cons_some f lo a) by exact Ha.
  rewrite (omap_none_valid f (seq (S lo) (n - S lo))).
  2:{ intros r Hr. apply elem_of_seq in Hr. apply Hgap. lia. }
  rewrite interp_skip; [apply interp_last | | simpl; lia].
  eapply Forall_impl; [apply (anchors_below f 0 lo)|].
  intros p Hp. simpl in Hp. lia.
Qed.
End Anchors.

(** *** The three branches of the interpolation stage *)

Lemma lookup_map_seq {A} (g : nat -> A) (a n i : nat) :
  (i < n)%nat -> map g (seq a n) !! i = Some (g (a + i)%nat).
Proof.
  revert a i. induction n as [|n IH]; intros a i Hi; [lia|].
  destruct i as [|i]; cbn [seq map].
  - now rewrite Nat.add_0_r.
  - change ((g a :: map g (seq (S a) n)) !! S i) with (map g (seq (S a) n) !! i).
    rewrite IH by lia. f_equal. f_equal. lia.
Qed.

Lemma np_linspace_many (start stop : Q) (num : nat) :
  (2 <= num)%nat ->
  np_linspace start stop num =
    map (fun i => inject_Z (Z.of_nat i)
                  * ((stop - start) / inject_Z (Z.of_nat num - 1)) + start)
        (seq 0 num).
Proof. intros H. destruct num as [|[|num]]; [lia | lia | reflexivity]. Qed.

Lemma np_linspace_length (start stop : Q) (num : nat) :
  length (np_linspace start stop num) = num.
Proof.
  destruct num as [|[|num]]; [reflexivity | reflexivity |].
  rewrite np_linspace_many by lia. now rewrite length_map, length_seq.
Qed.

(** The identity ramp: entry [i] of [np.linspace(0, 255, 256)] is [i]. *)
Lemma ramp_entry (i : nat) :
  (i < 256)%nat ->
  exists v, np_linspace 0 255 256 !! i = Some v /\ v == inject_Z (Z.of_nat i).
Proof.
  intros Hi. rewrite np_linspace_many by lia. eexists. split.
  - rewrite lookup_map_seq by exact Hi. reflexivity.
  - cbn [Nat.add].
    assert (E : (255 - 0) / inject_Z (Z.of_nat 256 - 1) == 1) by reflexivity.
    rewrite E. ring.
Qed.

Section Branches.
Variable f : nat -> option Q.

Lemma interpolate_some_missing :
  (exists r, (r < 256)%nat /\ is_Some (f r)) ->
  (exists r, (r < 256)%nat /\ f r = None) ->
  interpolate_missing (map f (seq 0 256))
  = map (fun i => interp_at (Z.of_nat i) (anchors f (seq 0 256))) (seq 0 256).
Proof.
  intros (r1 & Hr1 & Hs) (r2 & Hr2 & Hn). unfold interpolate_missing. cbv zeta.
  assert (Hany : np_any (np_not_isnan (map f (seq 0 256))) = true).
  { apply any_valid. exists r1. split; [apply elem_of_seq; lia | exact Hs]. }
  assert (Hall : np_all (np_not_isnan (map f (seq 0 256))) = false).
  { apply not_true_iff_false. intros H.
    pose proof (proj1 (all_valid f _) H r2) as Hs2.
    rewrite Hn in Hs2. destruct Hs2 as [? ?]; [apply elem_of_seq; lia|].
    discriminate. }
  rewrite Hany, Hall. cbn [andb negb]. unfold np_interp. cbv zeta.
  now rewrite pts_anchors.
Qed.

Lemma interpolate_none :
  (forall r, (r < 256)%nat -> f r = None) ->
  interpolate_missing (map f (seq 0 256)) = np_linspace 0 255 256.
Proof.
  intros Hn. unfold interpolate_missing. cbv zeta.
  assert (Hany : np_any (np_not_isnan (map f (seq 0 256))) = false).
  { apply not_true_iff_false. intros H. apply any_valid in H as (r & Hr & Hs).
    apply elem_of_seq in Hr. rewrite Hn in Hs by lia.
    destruct Hs as [? ?]. discriminate. }
  rewrite Hany. reflexivity.
Qed.

Lemma interpolate_all (g : nat -> Q) :
  (forall r, (r < 256)%nat -> f r = Some (g r)) ->
  interpolate_missing (map f (seq 0 256)) = map g (seq 0 256).
Proof.
  intros Hs. unfold interpolate_missing. cbv zeta.
  assert (Hall : np_all (np_not_isnan (map f (seq 0 256))) = true).
  { apply all_valid. intros r Hr. apply elem_of_seq in Hr.
    rewrite Hs by lia. eauto. }
  assert (Hany : np_any (np_not_isnan (map f (seq 0 256))) = true).
  { apply any_valid. exists 0%nat. split; [apply elem_of_seq; lia|].
    rewrite Hs by lia. eauto. }
  rewrite Hany, Hall. cbn [andb negb]. rewrite omap_id_map.
  apply omap_all_valid. intros r Hr. apply elem_of_seq in Hr. apply Hs. lia.
Qed.

(** Which branch is taken depends only on which entries are valid. *)
Lemma interpolate_cases :
  (forall r, (r < 256)%nat -> is_Some (f r)) \/
  (forall r, (r < 256)%nat -> f r = None) \/
  ((exists r, (r < 256)%nat /\ is_Some (f r)) /\
   (exists r, (r < 256)%nat /\ f r = None)).
Proof.
  destruct (np_all (np_not_isnan (map f (seq 0 256)))) eqn:Hall.
  - left. intros r Hr. apply (proj1 (all_valid f _) Hall).
    apply elem_of_seq. lia.
  - right.
    destruct (np_any (np_not_isnan (map f (seq 0 256)))) eqn:Hany.
    + right. split.
      * apply any_valid in Hany as (r & Hr & Hs). apply elem_of_seq in Hr.
        exists r. split; [lia | exact Hs].
      * apply not_all_valid in Hall as (r & Hr & Hn). apply elem_of_seq in Hr.
        exists r. split; [lia | exact Hn].
    + left. intros r Hr. destruct (f r) eqn:E; [|reflexivity]. exfalso.
      apply not_true_iff_false in Hany. apply Hany, any_valid.
      exists r. split; [apply elem_of_seq; lia | rewrite E; eauto].
Qed.

Lemma interpolate_length :
  length (interpolate_missing (map f (seq 0 256))) = 256%nat.
Proof.
  destruct interpolate_cases as [Ha | [Hn | [Hs Hm]]].
  - rewrite (interpolate_all (fun r => default 0 (f r))).
    + now rewrite length_map, length_seq.
    + intros r Hr. destruct (Ha r Hr) as [v ->]. reflexivity.
  - rewrite (interpolate_none Hn). apply np_linspace_length.
  - rewrite (interpolate_some_missing Hs Hm). now rewrite length_map, length_seq.
Qed.
End Branches.

(** *** Means *)

Lemma Zsum_bounds (lo hi : Z) (gs : list Z) :
  Forall (fun g => (lo <= g <= hi)%Z) gs ->
  (lo * Z.of_nat (length gs) <= Zsum gs <= hi * Z.of_nat (length gs))%Z.
Proof.
  induction 1 as [|g gs Hg _ IH]; simpl length; simpl Zsum; [lia|].
  rewrite Nat2Z.inj_succ. lia.
Qed.

Lemma mean_range (lo hi : Z) (gs : list Z) :
  gs <> [] -> Forall (fun g => (lo <= g <= hi)%Z) gs ->
  inject_Z lo <= inject_Z (Zsum gs) / inject_Z (Z.of_nat (length gs))
  <= inject_Z hi.
Proof.
  intros Hne Hall. destruct (Zsum_bounds lo hi gs Hall) as [Hlo Hhi].
  assert (Hlen : 0 < inject_Z (Z.of_nat (length gs))).
  { change 0 with (inject_Z 0). rewrite <- Zlt_Qlt.
    destruct gs; [contradiction | simpl length; lia]. }
  split.
  - apply Qle_shift_div_l; [exact Hlen|].
    rewrite <- inject_Z_mult, <- Zle_Qle. exact Hlo.
  - apply Qle_shift_div_r; [exact Hlen|].
    rewrite <- inject_Z_mult, <- Zle_Qle. exact Hhi.
Qed.

Lemma in_greens (e : ndarray) (r g : Z) :
  g ∈ greens_of e r ->
  exists y x, (y < height e)%nat /\ (x < width e)%nat /\
              item e y x 0%nat = r /\ item e y x 1%nat = g.
Proof.
  unfold greens_of. intros H.
  apply list_elem_of_In, in_map_iff in H as ([a b] & <- & Hin).
  apply list_elem_of_In, list_elem_of_filter in Hin as [Ha Hin]. simpl in Ha.
  apply list_elem_of_In, in_samples in Hin as (y & x & Hy & Hx & -> & ->).
  exists y, x. auto.
Qed.

Lemma mean_green_range (e : ndarray) (r : nat) (lo hi : Z) :
  resolved e r ->
  (forall y x, (y < height e)%nat -> (x < width e)%nat ->
               item e y x 0%nat = Z.of_nat r -> (lo <= item e y x 1%nat <= hi)%Z) ->
  inject_Z lo <= mean_green e r <= inject_Z hi.
Proof.
  intros Hr Hg. apply mean_range; [now apply greens_resolved|].
  apply Forall_forall. intros g Hin.
  apply in_greens in Hin as (y & x & Hy & Hx & Hred & <-). now apply Hg.
Qed.

Lemma resolved_iff_entry (e : ndarray) (r : nat) :
  resolved e r <-> is_Some (np_mean (greens_of e (Z.of_nat r))).
Proof.
  split.
  - intros H. rewrite (entry_resolved e r H). eauto.
  - intros [v Hv]. eapply entry_some_resolved, Hv.
Qed.

(** ** The claims about the table *)

(** C1. When every red value 0..255 has at least one sample (and the
    texture has at least two channels), [build_red_to_green_map] returns the
    256-entry table whose entry [r] is exactly the arithmetic mean of the
    green values of the pixels whose red channel is [r]: nothing is
    interpolated. *)
Theorem build_table_full_coverage (e : ndarray) :
  (2 <= channels e)%nat ->
  (forall r, (r < 256)%nat -> resolved e r) ->
  exists t,
    build_red_to_green_map e = inr t /\
    t = map (mean_green e) (seq 0 256) /\
    length t = 256%nat /\
    forall r, (r < 256)%nat -> t !! r = Some (mean_green e r).
Proof.
  intros Hc Hall. eexists. split; [apply (build_ok e Hc)|].
  rewrite (interpolate_all _ (mean_green e))
    by (intros r Hr; apply entry_resolved, Hall, Hr).
  split; [reflexivity|]. split; [now rewrite length_map, length_seq|].
  intros r Hr. now rewrite lookup_map_seq.
Qed.

Lemma build_table_full_coverage_witness :
  exists t,
    build_red_to_green_map erosion_full = inr t /\
    t !! 3%nat = Some (mean_green erosion_full 3).
Proof.
  destruct (build_table_full_coverage erosion_full) as (t & Ht & _ & _ & Hm).
  - simpl. lia.
  - intros r Hr. exists 0%nat, r. simpl. repeat split; lia.
  - exists t. split; [exact Ht | apply Hm; lia].
Defined.

(** C4. For an empty erosion texture (no pixel, so no red value has a
    sample) the table is the identity ramp: entry [i] equals [i], for every
    [i] in 0..255. *)
Theorem build_table_empty (e : ndarray) :
  (2 <= channels e)%nat ->
  (height e = 0 \/ width e = 0)%nat ->
  exists t,
    build_red_to_green_map e = inr t /\
    length t = 256%nat /\
    forall i, (i < 256)%nat ->
      exists v, t !! i = Some v /\ v == inject_Z (Z.of_nat i).
Proof.
  intros Hc Hempty. eexists. split; [apply (build_ok e Hc)|].
  rewrite interpolate_none.
  - split; [apply np_linspace_length | apply ramp_entry].
  - intros r _. apply entry_unresolved. intros (y & x & Hy & Hx & _). lia.
Qed.

Lemma build_table_empty_witness :
  exists t,
    build_red_to_green_map erosion_empty = inr t /\
    exists v, t !! 200%nat = Some v /\ v == 200.
Proof.
  destruct (build_table_empty erosion_empty) as (t & Ht & _ & Hi).
  - simpl. lia.
  - left. reflexivity.
  - exists t. split; [exact Ht | apply (Hi 200%nat); lia].
Defined.

(** C9. [build_red_to_green_map] fails exactly on an erosion texture with
    fewer than two channels, with an error of the class InvalidInput (the
    IndexError of the channel lookup); with two channels or more it returns
    a 256-entry table, whatever the width and height. *)
Theorem build_table_failure_modes (e : ndarray) :
  ((channels e < 2)%nat ->
   exists err, build_red_to_green_map e = inl err /\ classify err = InvalidInput) /\
  ((2 <= channels e)%nat ->
   exists t, build_red_to_green_map e = inr t /\ length t = 256%nat) /\
  (forall err, build_red_to_green_map e = inl err ->
               (channels e < 2)%nat /\ classify err = InvalidInput).
Proof.
  split; [|split].
  - intros Hc. exists IndexError. split; [now apply build_raises | reflexivity].
  - intros Hc. eexists. split; [apply (build_ok e Hc) | apply interpolate_length].
  - intros err Herr. destruct (le_lt_dec 2 (channels e)) as [Hc|Hc].
    + rewrite (build_ok e Hc) in Herr. discriminate.
    + split; [exact Hc | now destruct err].
Qed.

Lemma build_table_failure_modes_witness :
  build_red_to_green_map erosion_gray = inl IndexError /\
  exists t, build_red_to_green_map erosion_2x2 = inr t /\ length t = 256%nat.
Proof.
  destruct (build_table_failure_modes erosion_gray) as [Hfail _].
  destruct (build_table_failure_modes erosion_2x2) as (_ & Hok & _).
  split.
  - destruct Hfail as ([] & H & _); [simpl; lia | exact H].
  - apply Hok. simpl. lia.
Defined.

Lemma anchors_values (f : nat -> option Q) (P : Q -> Prop) (rs : list nat) :
  (forall r v, r ∈ rs -> f r = Some v -> P v) ->
  Forall (fun p => P p.2) (anchors f rs).
Proof.
  intros H. apply Forall_forall. intros [x v] Hin.
  apply list_elem_of_omap in Hin as (r & Hr & Hf).
  destruct (f r) as [v'|] eqn:E; inversion Hf; subst. simpl. eauto.
Qed.

Lemma anchors_nonempty (f : nat -> option Q) (rs : list nat) (r : nat) :
  r ∈ rs -> is_Some (f r) -> anchors f rs <> [].
Proof.
  intros Hr [v Hv] Hnil.
  assert (Hin : (Z.of_nat r, v) ∈ anchors f rs).
  { apply list_elem_of_omap. exists r. split; [exact Hr | now rewrite Hv]. }
  rewrite Hnil in Hin. inversion Hin.
Qed.

(** C10. On an erosion texture of bytes (with at least two channels) every
    entry of the returned 256-entry table lies in [0, 255], whichever way
    it was produced: mean, interpolation, flat extension or identity ramp. *)
Theorem build_table_byte_range (e : ndarray) :
  (2 <= channels e)%nat ->
  byte_image e ->
  exists t,
    build_red_to_green_map e = inr t /\
    length t = 256%nat /\
    Forall (fun v => 0 <= v <= 255) t.
Proof.
  intros Hc Hbytes. eexists. split; [apply (build_ok e Hc)|].
  split; [apply interpolate_length|].
  set (f := fun r => np_mean (greens_of e (Z.of_nat r))).
  assert (Hmean : forall r v, f r = Some v -> 0 <= v <= 255).
  { intros r v Hv. pose proof (entry_some_resolved e r v Hv) as Hr.
    unfold f in Hv. rewrite (entry_resolved e r Hr) in Hv. inversion Hv; subst.
    apply (mean_green_range e r 0 255 Hr).
    intros y x Hy Hx _. apply Hbytes; lia. }
  destruct (interpolate_cases f) as [Ha | [Hn | [Hs Hm]]].
  - rewrite (interpolate_all f (fun r => default 0 (f r))).
    + apply Forall_map, Forall_forall. intros r Hr. apply elem_of_seq in Hr.
      cbv beta. destruct (Ha r) as [v Hv]; [lia|]. rewrite Hv. simpl. eauto.
    + intros r Hr. destruct (Ha r Hr) as [v ->]. reflexivity.
  - rewrite (interpolate_none f Hn). apply Forall_forall. intros v Hin.
    apply list_elem_of_lookup in Hin as [i Hi].
    assert (Hlt : (i < 256)%nat).
    { apply lookup_lt_Some in Hi. now rewrite np_linspace_length in Hi. }
    destruct (ramp_entry i Hlt) as (v' & Hv' & Heq).
    rewrite Hi in Hv'. inversion Hv'; subst. rewrite Heq.
    split; [change 0 with (inject_Z 0) | change 255 with (inject_Z 255)];
      rewrite <- Zle_Qle; lia.
  - rewrite (interpolate_some_missing f Hs Hm).
    apply Forall_map, Forall_forall. intros i _. cbv beta.
    destruct Hs as (r & Hr & Hsome).
    apply interp_range.
    + apply (anchors_nonempty f _ r); [apply elem_of_seq; lia | exact Hsome].
    + apply (anchors_values f (fun v => 0 <= v <= 255)). intros; eauto.
Qed.

Lemma build_table_byte_range_witness :
  exists t,
    build_red_to_green_map erosion_2x2 = inr t /\
    Forall (fun v => 0 <= v <= 255) t.
Proof.
  destruct (build_table_byte_range erosion_2x2) as (t & Ht & _ & Hr).
  - simpl. lia.
  - intros y x k _ _ _. simpl. destruct (y =? 0)%nat; lia.
  - exists t. split; [exact Ht | exact Hr].
Defined.

Lemma lerp_between_eq (lo hi i : nat) (a b : Q) :
  (lo < hi)%nat ->
  (b - a) / inject_Z (Z.of_nat hi - Z.of_nat lo)
  * inject_Z (Z.of_nat i - Z.of_nat lo) + a
  == lerp_between lo hi i a b.
Proof.
  intros H. unfold lerp_between.
  assert (Hd : 0 < inject_Z (Z.of_nat hi - Z.of_nat lo))
    by (change 0 with (inject_Z 0); rewrite <- Zlt_Qlt; lia).
  field. lra.
Qed.

(** C3. When some red values have samples and others have none, every
    resolved entry is its mean, every unresolved entry between two
    neighbouring resolved indices lies on the line through them, and the
    entries below the lowest (above the highest) resolved index take its
    value.  With (0,0) and (255,255) as the only samples, entry [i] is [i]. *)
Theorem build_table_gap_filling (e : ndarray) :
  (2 <= channels e)%nat ->
  (exists r, (r < 256)%nat /\ resolved e r) ->
  (exists r, (r < 256)%nat /\ ~ resolved e r) ->
  exists t,
    build_red_to_green_map e = inr t /\
    length t = 256%nat /\
    (forall i, (i < 256)%nat -> resolved e i -> t !! i = Some (mean_green e i)) /\
    (forall lo hi i,
        (lo < i < hi)%nat -> (hi < 256)%nat ->
        resolved e lo -> resolved e hi ->
        (forall j, (lo < j < hi)%nat -> ~ resolved e j) ->
        exists v, t !! i = Some v /\
                  v == lerp_between lo hi i (mean_green e lo) (mean_green e hi)) /\
    (forall hi i,
        (i < hi)%nat -> (hi < 256)%nat -> resolved e hi ->
        (forall j, (j < hi)%nat -> ~ resolved e j) ->
        t !! i = Some (mean_green e hi)) /\
    (forall lo i,
        (lo < i)%nat -> (i < 256)%nat -> resolved e lo ->
        (forall j, (lo < j < 256)%nat -> ~ resolved e j) ->
        t !! i = Some (mean_green e lo)) /\
    ((forall y x, (y < height e)%nat -> (x < width e)%nat ->
                  (item e y x 0%nat = 0 /\ item e y x 1%nat = 0)%Z \/
                  (item e y x 0%nat = 255 /\ item e y x 1%nat = 255)%Z) ->
     resolved e 0 -> resolved e 255 ->
     forall i, (i < 256)%nat ->
       exists v, t !! i = Some v /\ v == inject_Z (Z.of_nat i)).
Proof.
  intros Hc (r1 & Hr1 & Hres) (r2 & Hr2 & Hunres).
  set (f := fun r => np_mean (greens_of e (Z.of_nat r))).
  assert (Hsome : forall r, resolved e r -> f r = Some (mean_green e r))
    by (intros r; apply entry_resolved).
  assert (Hnone : forall r, ~ resolved e r -> f r = None)
    by (intros r; apply entry_unresolved).
  eexists. split; [apply (build_ok e Hc)|]. fold f.
  rewrite (interpolate_some_missing f).
  2:{ exists r1. split; [exact Hr1 | rewrite (Hsome r1 Hres); eauto]. }
  2:{ exists r2. split; [exact Hr2 | now apply Hnone]. }
  assert (Hhit : forall i, (i < 256)%nat -> resolved e i ->
            map (fun i => interp_at (Z.of_nat i) (anchors f (seq 0 256))) (seq 0 256) !! i
            = Some (mean_green e i)).
  { intros i Hi Hr. rewrite lookup_map_seq by exact Hi. cbn [Nat.add]. f_equal.
    apply anchors_hit; auto. }
  assert (Hbetween : forall lo hi i,
            (lo < i < hi)%nat -> (hi < 256)%nat ->
            resolved e lo -> resolved e hi ->
            (forall j, (lo < j < hi)%nat -> ~ resolved e j) ->
            exists v,
              map (fun i => interp_at (Z.of_nat i) (anchors f (seq 0 256))) (seq 0 256) !! i
              = Some v /\
              v == lerp_between lo hi i (mean_green e lo) (mean_green e hi)).
  { intros lo hi i Hi Hhi Hlo Hhi' Hgap. eexists. split.
    - rewrite lookup_map_seq by lia. cbn [Nat.add]. reflexivity.
    - rewrite (anchors_between f 256 lo hi i (mean_green e lo) (mean_green e hi));
        auto. apply lerp_between_eq. lia. }
  split; [now rewrite length_map, length_seq|].
  split; [exact Hhit|]. split; [exact Hbetween|]. split; [|split].
  - intros hi i Hi Hhi Hr Hgap. rewrite lookup_map_seq by lia. cbn [Nat.add].
    f_equal. apply (anchors_flat_left f 256 hi); auto; lia.
  - intros lo i Hlo Hi Hr Hgap. rewrite lookup_map_seq by lia. cbn [Nat.add].
    f_equal. apply (anchors_flat_right f 256 lo); auto; lia.
  - intros Hpix H0 H255 i Hi.
    assert (Hm0 : mean_green e 0 == 0).
    { apply Qle_antisym; apply (mean_green_range e 0 0 0 H0);
        intros y x Hy Hx Hred; destruct (Hpix y x Hy Hx) as [[_ ->]|[Hr _]]; lia. }
    assert (Hm255 : mean_green e 255 == 255).
    { apply Qle_antisym; apply (mean_green_range e 255 255 255 H255);
        intros y x Hy Hx Hred; destruct (Hpix y x Hy Hx) as [[Hr _]|[_ ->]]; lia. }
    destruct (decide (i = 0%nat)) as [->|Hi0];
      [exists (mean_green e 0); split; [apply Hhit; [lia | exact H0] | exact Hm0]|].
    destruct (decide (i = 255%nat)) as [->|Hi255];
      [exists (mean_green e 255);
       split; [apply Hhit; [lia | exact H255] | exact Hm255]|].
    destruct (Hbetween 0%nat 255%nat i) as (v & Hv & Heq); try lia; auto.
    + intros j Hj (y & x & Hy & Hx & Hred).
      destruct (Hpix y x Hy Hx) as [[Hr _]|[Hr _]]; lia.
    + exists v. split; [exact Hv|]. rewrite Heq. unfold lerp_between.
      rewrite Hm0, Hm255. change (Z.of_nat 0) with 0%Z.
      change (Z.of_nat 255) with 255%Z. rewrite Z.sub_0_r.
      change (inject_Z (255 - 0)) with 255. field.
Qed.

Lemma build_table_gap_filling_witness :
  exists t,
    build_red_to_green_map erosion_2x2 = inr t /\
    exists v, t !! 100%nat = Some v /\ v == 100.
Proof.
  destruct (build_table_gap_filling erosion_2x2)
    as (t & Ht & _ & _ & _ & _ & _ & Hid).
  - simpl. lia.
  - exists 0%nat. split; [lia|]. exists 0%nat, 0%nat. simpl. repeat split; lia.
  - exists 1%nat. split; [lia|]. intros (y & x & _ & _ & H). simpl in H.
    destruct (y =? 0)%nat; lia.
  - exists t. split; [exact Ht|]. apply (Hid); try lia.
    + intros y x _ _. simpl.
      destruct (y =? 0)%nat; [left | right]; split; reflexivity.
    + exists 0%nat, 0%nat. simpl. repeat split; lia.
    + exists 1%nat, 0%nat. simpl. repeat split; lia.
Defined.

(** ** The resampler *)

Lemma mapM_inr {A B} (f : A -> res B) (P : B -> Prop) (l : list A) (bs : list B) :
  (forall a b, f a = inr b -> P b) ->
  mapM f l = inr bs -> length bs = length l /\ Forall P bs.
Proof.
  intros HP. revert bs. induction l as [|a l IH]; intros bs H; simpl in H.
  - inversion H. split; [reflexivity | constructor].
  - apply bind_inr in H as (b & Hb & H). apply bind_inr in H as (bs' & Hbs & H).
    inversion H; subst. destruct (IH bs' Hbs) as [Hlen Hall].
    split; [simpl; now rewrite Hlen | constructor; eauto].
Qed.

Lemma blend_pixels_length (fx fy : Q) (n : nat) (p00 p10 p01 p11 : list Q) :
  length p00 = n -> length p10 = n -> length p01 = n -> length p11 = n ->
  length (blend_pixels fx fy p00 p10 p01 p11) = n.
Proof.
  revert p00 p10 p01 p11. induction n as [|n IH];
    intros [|a p00] [|b p10] [|c p01] [|d p11]; simpl; try discriminate; auto.
Qed.

Lemma getitem_length (img : ndarray) (y x : Z) (p : list Q) :
  getitem img y x = inr p -> length p = channels img.
Proof.
  unfold getitem. intros H. apply bind_inr in H as (yi & _ & H).
  apply bind_inr in H as (xi & _ & H). inversion H.
  now rewrite length_map, length_seq.
Qed.

(** A sampled pixel has the channels of the image. *)
Lemma bilinear_sample_at_length (img : ndarray) (x y : np_float) (v : list Q) :
  bilinear_sample_at img x y = inr v -> length v = channels img.
Proof.
  unfold bilinear_sample_at.
  destruct (np_clip x _ _); try discriminate.
  destruct (np_clip y _ _); try discriminate.
  intros H. apply bind_inr in H as (p00 & H00 & H).
  apply bind_inr in H as (p10 & H10 & H). apply bind_inr in H as (p01 & H01 & H).
  apply bind_inr in H as (p11 & H11 & H). inversion H.
  apply blend_pixels_length; eapply getitem_length; eassumption.
Qed.

Lemma bilinear_sample_shape (img : ndarray) (xs ys : list np_float)
    (sampled : list (list Q)) :
  bilinear_sample img xs ys = inr sampled ->
  length sampled = length (zip xs ys) /\
  Forall (fun px => length px = channels img) sampled.
Proof.
  unfold bilinear_sample. apply mapM_inr.
  intros [x y] v. apply bilinear_sample_at_length.
Qed.

Lemma column_red_value_range (attack : Q) :
  (0 <= column_red_value attack <= 255)%Z.
Proof. unfold column_red_value, Zclip. lia. Qed.

Lemma table_lookup_ok (t : list Q) (rv : Z) :
  length t = 256%nat -> (0 <= rv <= 255)%Z ->
  exists v, table_lookup t rv = inr v /\ t !! Z.to_nat rv = Some v.
Proof.
  intros Hlen Hrv. unfold table_lookup.
  rewrite axis_index_in_range by (rewrite Hlen; lia). simpl.
  destruct (t !! Z.to_nat rv) as [v|] eqn:E; [eauto|].
  apply lookup_ge_None in E. lia.
Qed.


Lemma column_coords_length (H W : nat) (fi fo ad green : Q) (col : nat) :
  length (column_coords H W fi fo ad green col).1 = H /\
  length (column_coords H W fi fo ad green col).2 = H.
Proof.
  unfold column_coords. cbn [fst snd].
  now rewrite !length_map, np_linspace_length.
Qed.

Lemma remap_column_shape (g : ndarray) (t : list Q) (fi fo ad : Q) (col : nat)
    (sampled : list (list Q)) :
  remap_column g t fi fo ad col = inr sampled ->
  length sampled = height g /\
  Forall (fun px => length px = channels g) sampled.
Proof.
  unfold remap_column. intros H. apply bind_inr in H as (green & _ & H).
  apply bilinear_sample_shape in H as [Hlen Hpx]. split; [|exact Hpx].
  rewrite Hlen, length_zip.
  destruct (column_coords_length (height g) (width g) fi fo ad green col) as [-> ->].
  lia.
Qed.

Lemma set_column_shape (h w c col : nat) (sampled : list (list Q))
    (result : list (list (list Q))) :
  has_shape h w c result ->
  length sampled = h -> Forall (fun px => length px = c) sampled ->
  has_shape h w c (set_column col sampled result).
Proof.
  unfold has_shape, set_column. intros [Hlen Hrows]. revert h sampled Hlen.
  induction Hrows as [|row result [Hw Hpx] _ IH]; intros h sampled Hlen Hs Hall.
  - destruct sampled; simpl in *; split; auto; lia.
  - destruct sampled as [|px sampled]; simpl in *; [lia|].
    inversion Hall as [|? ? Hc Hall']; subst.
    destruct (IH (length result) sampled) as [Hlen' Hrows']; auto.
    split; [now rewrite Hlen'|]. constructor; [|exact Hrows'].
    split; [now rewrite length_insert | now apply Forall_insert].
Qed.

Lemma np_zeros_shape (h w c : nat) : has_shape h w c (np_zeros h w c).
Proof.
  unfold has_shape, np_zeros. split; [apply length_replicate|].
  apply Forall_replicate. split; [apply length_replicate|].
  apply Forall_replicate, length_replicate.
Qed.

Lemma remap_columns_shape (g : ndarray) (t : list Q) (fi fo ad : Q)
    (cols : list nat) (result r : list (list (list Q))) :
  has_shape (height g) (width g) (channels g) result ->
  remap_columns g t fi fo ad cols result = inr r ->
  has_shape (height g) (width g) (channels g) r.
Proof.
  revert result. induction cols as [|col cols IH]; intros result Hs H; simpl in H.
  - inversion H; subst. exact Hs.
  - apply bind_inr in H as (sampled & Hcol & H).
    apply remap_column_shape in Hcol as [Hlen Hpx].
    eapply IH; [|exact H]. now apply set_column_shape.
Qed.

Lemma remap_result_shape (g e : ndarray) (fi fo ad : Q)
    (result : list (list (list Q))) :
  remap_result g e fi fo ad = inr result ->
  has_shape (height g) (width g) (channels g) result.
Proof.
  unfold remap_result. intros H. apply bind_inr in H as (t & _ & H).
  eapply remap_columns_shape; [apply np_zeros_shape | exact H].
Qed.

(** *** Quantization *)

Lemma quantize_sample_floor (v : Q) :
  quantize_sample v = Qfloor (Qclip v 0 255) /\
  in_byte_range (quantize_sample v).
Proof.
  unfold quantize_sample, astype_uint8, Qtruncate, in_byte_range.
  assert (Hc : 0 <= Qclip v 0 255 <= 255) by (apply Qclip_bounds; lra).
  destruct (Qlt_bool (Qclip v 0 255) 0) eqn:E;
    [apply Qlt_bool_iff in E; lra|].
  assert (Hf : (0 <= Qfloor (Qclip v 0 255) <= 255)%Z)
    by (apply (Qfloor_range _ 255); exact Hc).
  rewrite Z.mod_small by lia. split; [reflexivity | exact Hf].
Qed.

Lemma quantize_floor (result : list (list (list Q))) :
  quantize result = map (map (map (fun v => Qfloor (Qclip v 0 255)))) result.
Proof.
  unfold quantize. apply map_ext; intros row. apply map_ext; intros px.
  apply map_ext; intros v. apply quantize_sample_floor.
Qed.

Lemma quantize_bytes (result : list (list (list Q))) :
  Forall (Forall (Forall in_byte_range)) (quantize result).
Proof.
  unfold quantize. apply Forall_map, Forall_forall; intros row _.
  apply Forall_map, Forall_forall; intros px _.
  apply Forall_map, Forall_forall; intros v _. apply quantize_sample_floor.
Qed.

Lemma quantize_shape (h w c : nat) (result : list (list (list Q))) :
  has_shape h w c result -> has_shape h w c (quantize result).
Proof.
  unfold has_shape, quantize. intros [Hlen Hrows].
  split; [now rewrite length_map|].
  apply Forall_map. eapply Forall_impl; [exact Hrows|].
  intros row [Hw Hpx]. simpl. split; [now rewrite length_map|].
  apply Forall_map. eapply Forall_impl; [exact Hpx|].
  intros px Hc. simpl. now rewrite length_map.
Qed.

Lemma Qclip_mono (v w lo hi : Q) : v <= w -> Qclip v lo hi <= Qclip w lo hi.
Proof.
  intros H. unfold Qclip.
  destruct (Qlt_bool v lo) eqn:E1;
    [apply Qlt_bool_iff in E1 | apply Qlt_bool_false in E1];
  destruct (Qlt_bool w lo) eqn:E2;
    [apply Qlt_bool_iff in E2 | apply Qlt_bool_false in E2 |
     apply Qlt_bool_iff in E2 | apply Qlt_bool_false in E2];
  cbv zeta; repeat case_Qlt; lra.
Qed.

Lemma Qclip_comp (v w lo hi : Q) : v == w -> Qclip v lo hi == Qclip w lo hi.
Proof.
  intros H. apply Qle_antisym; apply Qclip_mono; lra.
Qed.

Lemma quantize_sample_comp (v w : Q) :
  v == w -> quantize_sample v = quantize_sample w.
Proof.
  intros H. rewrite (proj1 (quantize_sample_floor v)),
    (proj1 (quantize_sample_floor w)).
  apply Qfloor_comp, Qclip_comp, H.
Qed.

Lemma quantize_sample_mono (v w : Q) :
  v <= w -> (quantize_sample v <= quantize_sample w)%Z.
Proof.
  intros H. rewrite (proj1 (quantize_sample_floor v)),
    (proj1 (quantize_sample_floor w)).
  apply Qfloor_resp_le, Qclip_mono, H.
Qed.

Lemma quantize_sample_byte (z : Z) :
  (0 <= z <= 255)%Z -> quantize_sample (inject_Z z) = z.
Proof.
  intros Hz. rewrite (proj1 (quantize_sample_floor _)).
  rewrite Qclip_id by (apply inject_Z_byte, Hz). apply Qfloor_Z.
Qed.

(** ** Binary64 arithmetic

    What the statements in binary64 need of the operations of [SpecFloat]:
    how [binary_round_aux] shifts and rounds a mantissa, when its result is
    finite and not zero, and bounds on the magnitude of sums, products and
    quotients. *)

Section Binary64.

Local Open Scope Z_scope.

Lemma digits2_pos_size p : SpecFloat.digits2_pos p = Pos.size p.
Proof. induction p; simpl; congruence. Qed.

Lemma Zdigits2_log2 p : SpecFloat.Zdigits2 (Zpos p) = Z.log2 (Zpos p) + 1.
Proof.
  simpl. rewrite digits2_pos_size.
  destruct p; simpl; lia.
Qed.

Lemma Zdigits2_nonneg m : 0 <= SpecFloat.Zdigits2 m.
Proof. destruct m; simpl; lia. Qed.

Lemma Zdigits2_le m d : 0 <= d -> 0 <= m < 2 ^ d -> SpecFloat.Zdigits2 m <= d.
Proof.
  intros Hd [H0 H].
  destruct m as [|p|p]; [simpl; lia| |lia].
  rewrite Zdigits2_log2.
  assert (Z.log2 (Z.pos p) < d) by (apply Z.log2_lt_pow2; lia).
  lia.
Qed.

Lemma Zdigits2_lower m : 0 < m -> 2 ^ (SpecFloat.Zdigits2 m - 1) <= m.
Proof.
  intros H. destruct m as [|p|p]; try lia.
  rewrite Zdigits2_log2.
  replace (Z.log2 (Z.pos p) + 1 - 1) with (Z.log2 (Z.pos p)) by lia.
  apply Z.log2_spec. lia.
Qed.

Lemma Zdigits2_pos m : 0 < m -> 1 <= SpecFloat.Zdigits2 m.
Proof. destruct m; simpl; lia. Qed.

Lemma Zdigits2_upper m : 0 <= m -> m < 2 ^ SpecFloat.Zdigits2 m.
Proof.
  intros H. destruct m as [|p|p]; [simpl; lia| |lia].
  rewrite Zdigits2_log2. apply Z.log2_spec. lia.
Qed.

Lemma shr_1_m mrs :
  0 <= SpecFloat.shr_m mrs ->
  SpecFloat.shr_m (SpecFloat.shr_1 mrs) = Z.shiftr (SpecFloat.shr_m mrs) 1.
Proof.
  destruct mrs as [m r s]. cbn [SpecFloat.shr_m]. intros H.
  rewrite Z.shiftr_div_pow2 by lia. change (2 ^ 1) with 2.
  destruct m as [|[p|p|]|p]; try lia; cbn [SpecFloat.shr_1 SpecFloat.shr_m].
  - reflexivity.
  - apply Z.div_unique with 1; lia.
  - apply Z.div_unique with 0; lia.
  - reflexivity.
Qed.

Lemma iter_shr_m p : forall mrs,
  0 <= SpecFloat.shr_m mrs ->
  SpecFloat.shr_m (SpecFloat.iter_pos SpecFloat.shr_1 p mrs) =
  Z.shiftr (SpecFloat.shr_m mrs) (Zpos p).
Proof.
  induction p as [p IH|p IH|]; intros mrs H; simpl SpecFloat.iter_pos.
  - assert (H1 : 0 <= SpecFloat.shr_m (SpecFloat.shr_1 mrs)).
    { rewrite shr_1_m by exact H. apply Z.shiftr_nonneg. exact H. }
    assert (H2 : 0 <= SpecFloat.shr_m
                        (SpecFloat.iter_pos SpecFloat.shr_1 p (SpecFloat.shr_1 mrs))).
    { rewrite IH by exact H1. apply Z.shiftr_nonneg. exact H1. }
    rewrite IH by exact H2. rewrite IH by exact H1. rewrite shr_1_m by exact H.
    rewrite !Z.shiftr_shiftr by lia. f_equal. lia.
  - assert (H2 : 0 <= SpecFloat.shr_m (SpecFloat.iter_pos SpecFloat.shr_1 p mrs)).
    { rewrite IH by exact H. apply Z.shiftr_nonneg. exact H. }
    rewrite IH by exact H2. rewrite IH by exact H.
    rewrite !Z.shiftr_shiftr by lia. f_equal. lia.
  - apply shr_1_m. exact H.
Qed.

Lemma fexp_eq e : SpecFloat.fexp B64.prec B64.emax e = Z.max (e - 53) (-1074).
Proof. reflexivity. Qed.

Lemma shr_record_of_loc_m m l :
  SpecFloat.shr_m (SpecFloat.shr_record_of_loc m l) = m.
Proof. destruct l as [|[]]; reflexivity. Qed.

(** [shr_fexp]: the exponent becomes the larger of [e] and [fexp], the
    mantissa is shifted right by the difference. *)
Lemma shr_fexp_spec m e l :
  0 <= m ->
  let e1 := Z.max e (SpecFloat.fexp B64.prec B64.emax (SpecFloat.Zdigits2 m + e)) in
  (SpecFloat.shr_fexp B64.prec B64.emax m e l).2 = e1 /\
  SpecFloat.shr_m (SpecFloat.shr_fexp B64.prec B64.emax m e l).1 =
    Z.shiftr m (e1 - e).
Proof.
  intros H e1. unfold SpecFloat.shr_fexp, SpecFloat.shr.
  fold e1.
  set (f := SpecFloat.fexp B64.prec B64.emax (SpecFloat.Zdigits2 m + e)) in *.
  destruct (f - e) as [|p|p] eqn:E; cbn [fst snd].
  - replace (e1 - e) with 0 by lia. rewrite shr_record_of_loc_m.
    split; [lia | reflexivity].
  - split; [lia|].
    rewrite iter_shr_m by (rewrite shr_record_of_loc_m; exact H).
    rewrite shr_record_of_loc_m. f_equal. lia.
  - replace (e1 - e) with 0 by lia. rewrite shr_record_of_loc_m.
    split; [lia | reflexivity].
Qed.

Lemma round_nearest_even_range m l :
  m <= SpecFloat.round_nearest_even m l <= m + 1.
Proof.
  destruct l as [|[]]; simpl; try lia.
  destruct (Z.even m); lia.
Qed.

(** The shape of [binary_round_aux] on a non-negative mantissa. *)
Lemma binary_round_aux_spec s mx ex lx :
  0 <= mx ->
  exists m1 e1 e2,
    e1 = Z.max ex (SpecFloat.fexp B64.prec B64.emax (SpecFloat.Zdigits2 mx + ex)) /\
    Z.shiftr mx (e1 - ex) <= m1 <= Z.shiftr mx (e1 - ex) + 1 /\
    e2 = Z.max e1 (SpecFloat.fexp B64.prec B64.emax (SpecFloat.Zdigits2 m1 + e1)) /\
    SpecFloat.binary_round_aux B64.prec B64.emax s mx ex lx =
      match Z.shiftr m1 (e2 - e1) with
      | Z0 => SpecFloat.S754_zero s
      | Zpos m => if e2 <=? 971 then SpecFloat.S754_finite s m e2
                  else SpecFloat.S754_infinity s
      | Zneg _ => SpecFloat.S754_nan
      end.
Proof.
  intros H. unfold SpecFloat.binary_round_aux.
  destruct (shr_fexp_spec mx ex lx H) as [He1 Hm1].
  destruct (SpecFloat.shr_fexp B64.prec B64.emax mx ex lx) as [mrs' e'].
  cbn [fst snd] in He1, Hm1.
  set (m1 := SpecFloat.round_nearest_even (SpecFloat.shr_m mrs')
               (SpecFloat.loc_of_shr_record mrs')).
  assert (Hr := round_nearest_even_range (SpecFloat.shr_m mrs')
                  (SpecFloat.loc_of_shr_record mrs')). fold m1 in Hr.
  assert (H1 : 0 <= m1).
  { assert (0 <= SpecFloat.shr_m mrs') by (rewrite Hm1; apply Z.shiftr_nonneg; exact H).
    lia. }
  destruct (shr_fexp_spec m1 e' SpecFloat.loc_Exact H1) as [He2 Hm2].
  destruct (SpecFloat.shr_fexp B64.prec B64.emax m1 e' SpecFloat.loc_Exact)
    as [mrs'' e''].
  cbn [fst snd] in He2, Hm2.
  exists m1, e', e''. subst e'.
  split; [reflexivity|]. split; [rewrite <- Hm1; exact Hr|].
  split; [exact He2|].
  rewrite Hm2, <- He2. reflexivity.
Qed.

Lemma shiftr_lt m k d : 0 <= k -> 0 <= d -> 0 <= m < 2 ^ (d + k) -> Z.shiftr m k < 2 ^ d.
Proof.
  intros Hk Hd [H0 H]. rewrite Z.shiftr_div_pow2 by exact Hk.
  apply Z.div_lt_upper_bound; [lia|]. rewrite <- Z.pow_add_r by lia.
  replace (k + d) with (d + k) by lia. exact H.
Qed.

(** No overflow: a mantissa below [2 ^ (D - ex)] with [D <= 1023]. *)
Lemma binary_round_aux_finite s mx ex lx D :
  0 <= mx < 2 ^ (D - ex) -> ex <= D -> ex <= 971 -> -1074 <= D <= 1023 ->
  B64.not_nan_inf (SpecFloat.binary_round_aux B64.prec B64.emax s mx ex lx).
Proof.
  intros [H0 Hlt] HD Hex HD'.
  destruct (binary_round_aux_spec s mx ex lx H0) as (m1 & e1 & e2 & He1 & Hm1 & He2 & ->).
  rewrite fexp_eq in He1, He2.
  assert (Hd : SpecFloat.Zdigits2 mx <= D - ex) by (apply Zdigits2_le; lia).
  assert (He1D : ex <= e1 <= D) by lia.
  assert (Hs : 0 <= Z.shiftr mx (e1 - ex) < 2 ^ (D - e1)).
  { split; [apply Z.shiftr_nonneg; exact H0|].
    apply shiftr_lt; [lia | lia |].
    replace (D - e1 + (e1 - ex)) with (D - ex) by lia. lia. }
  assert (Hm1' : 0 <= m1 < 2 ^ (D - e1 + 1)).
  { split; [lia|]. rewrite Z.pow_add_r by lia. change (2 ^ 1) with 2. lia. }
  assert (Hd1 : SpecFloat.Zdigits2 m1 <= D - e1 + 1) by (apply Zdigits2_le; lia).
  assert (He2' : e2 <= 971) by lia.
  assert (Hs2 : 0 <= Z.shiftr m1 (e2 - e1)) by (apply Z.shiftr_nonneg; lia).
  destruct (Z.shiftr m1 (e2 - e1)) as [|p|p]; [exact I| |lia].
  destruct (Z.leb_spec e2 971); [exact I | lia].
Qed.

Lemma normal_shift m e :
  1 <= m -> -1074 <= SpecFloat.Zdigits2 m + e - 53 ->
  let e1 := Z.max e (SpecFloat.fexp B64.prec B64.emax (SpecFloat.Zdigits2 m + e)) in
  1 <= Z.shiftr m (e1 - e) /\
  SpecFloat.Zdigits2 m + e <= SpecFloat.Zdigits2 (Z.shiftr m (e1 - e)) + e1.
Proof.
  intros Hm Hn e1. subst e1. rewrite fexp_eq.
  assert (Hl := Zdigits2_lower m ltac:(lia)).
  assert (Hp := Zdigits2_pos m ltac:(lia)).
  set (d := SpecFloat.Zdigits2 m) in *.
  set (k := Z.max e (Z.max (d + e - 53) (-1074)) - e).
  assert (Hk : 0 <= k <= d - 1) by lia.
  assert (H1 : 2 ^ (d - 1 - k) <= Z.shiftr m k).
  { rewrite Z.shiftr_div_pow2 by lia.
    apply Z.div_le_lower_bound; [lia|].
    rewrite <- Z.pow_add_r by lia. replace (k + (d - 1 - k)) with (d - 1) by lia.
    exact Hl. }
  assert (H2 : 1 <= 2 ^ (d - 1 - k)) by (apply Z.pow_le_mono_r with (b := 0); lia || lia).
  split; [lia|].
  assert (Hd' : d - k <= SpecFloat.Zdigits2 (Z.shiftr m k)).
  { destruct (Z.lt_ge_cases (SpecFloat.Zdigits2 (Z.shiftr m k)) (d - k)) as [Hlt|]; [|lia].
    exfalso.
    assert (Hl' := Zdigits2_nonneg (Z.shiftr m k)).
    assert (Z.shiftr m k < 2 ^ (d - 1 - k)).
    { assert (Hu : Z.shiftr m k < 2 ^ SpecFloat.Zdigits2 (Z.shiftr m k)).
      { destruct (Z.shiftr m k) as [|p|p] eqn:E; [simpl; lia| |lia].
        rewrite Zdigits2_log2. apply Z.log2_spec. lia. }
      eapply Z.lt_le_trans; [exact Hu|].
      apply Z.pow_le_mono_r; lia. }
    lia. }
  lia.
Qed.

Lemma binary_round_aux_normal s mx ex lx :
  1 <= mx -> -1074 <= SpecFloat.Zdigits2 mx + ex - 53 ->
  B64.at_least ex (SpecFloat.binary_round_aux B64.prec B64.emax s mx ex lx).
Proof.
  intros Hm Hn.
  destruct (binary_round_aux_spec s mx ex lx ltac:(lia))
    as (m1 & e1 & e2 & He1 & Hm1 & He2 & ->).
  destruct (normal_shift mx ex Hm Hn) as [Hs Hd]. rewrite <- He1 in Hs, Hd.
  assert (H1 : 1 <= m1) by lia.
  assert (Hd1 : SpecFloat.Zdigits2 (Z.shiftr mx (e1 - ex)) <= SpecFloat.Zdigits2 m1).
  { destruct (Z.lt_ge_cases (SpecFloat.Zdigits2 m1)
                (SpecFloat.Zdigits2 (Z.shiftr mx (e1 - ex)))) as [Hlt|]; [|lia].
    exfalso.
    assert (Hu : m1 < 2 ^ SpecFloat.Zdigits2 m1).
    { destruct m1 as [|p|p]; try lia. rewrite Zdigits2_log2. apply Z.log2_spec. lia. }
    assert (Hl := Zdigits2_lower (Z.shiftr mx (e1 - ex)) ltac:(lia)).
    assert (2 ^ SpecFloat.Zdigits2 m1
            <= 2 ^ (SpecFloat.Zdigits2 (Z.shiftr mx (e1 - ex)) - 1)).
    { apply Z.pow_le_mono_r; [lia|]. lia. }
    lia. }
  destruct (normal_shift m1 e1 H1 ltac:(lia)) as [Hs2 _]. rewrite <- He2 in Hs2.
  destruct (Z.shiftr m1 (e2 - e1)) as [|p|p]; try lia.
  destruct (e2 <=? 971); simpl; lia.
Qed.

Lemma at_least_weaken a b x : b <= a -> B64.at_least a x -> B64.at_least b x.
Proof. destruct x; simpl; auto; lia. Qed.

Lemma iter_xO p d : Z.pos (Pos.iter xO p d) = Z.pos p * 2 ^ Z.pos d.
Proof.
  induction d as [|d IH] using Pos.peano_ind.
  - simpl. lia.
  - rewrite Pos.iter_succ, Pos2Z.inj_xO, IH, Pos2Z.inj_succ, Z.pow_succ_r by lia.
    lia.
Qed.

(** [shl_align] keeps the number and does not raise the exponent. *)
Lemma shl_align_spec m e e' :
  let r := SpecFloat.shl_align m e e' in
  r.2 = Z.min e e' /\ Z.pos r.1 = Z.pos m * 2 ^ (e - r.2).
Proof.
  unfold SpecFloat.shl_align.
  destruct (e' - e) as [|d|d] eqn:E; cbn [fst snd].
  - split; [lia|]. replace (e - e) with 0 by lia. lia.
  - split; [lia|]. replace (e - e) with 0 by lia. lia.
  - split; [lia|]. rewrite iter_xO. f_equal. f_equal. lia.
Qed.

Lemma mag_weaken D D' x : D <= D' -> B64.mag D x -> B64.mag D' x.
Proof.
  intros H. destruct x as [| | |s m e]; simpl; auto.
  intros Hm. eapply Z.lt_le_trans; [exact Hm|].
  destruct (Z.lt_ge_cases (D - e) 0) as [Hn|Hn].
  - rewrite Z.pow_neg_r in Hm by exact Hn. lia.
  - apply Z.pow_le_mono_r; lia.
Qed.

Lemma mag_value D x : B64.mag D x -> exists q, B64.value x = Fin q.
Proof. destruct x as [| | |s m e]; simpl; try contradiction; eauto. Qed.

Lemma mag_exponent D s m e : B64.mag D (SpecFloat.S754_finite s m e) -> e < D.
Proof.
  simpl. intros Hm.
  destruct (Z.lt_ge_cases (D - e) 1) as [Hn|]; [|lia].
  destruct (Z.eq_dec (D - e) 0) as [E|]; [rewrite E in Hm; simpl in Hm; lia|].
  rewrite Z.pow_neg_r in Hm by lia. lia.
Qed.

Lemma shiftr_le_pow m k d :
  0 <= k -> 0 <= d -> 0 <= m <= 2 ^ d -> Z.shiftr m k <= 2 ^ (d - k).
Proof.
  intros Hk Hd [H0 H]. rewrite Z.shiftr_div_pow2 by exact Hk.
  destruct (Z.lt_ge_cases d k) as [Hlt|Hge].
  - rewrite (Z.pow_neg_r 2 (d - k)) by lia.
    rewrite Z.div_small; [reflexivity|]. split; [lia|].
    eapply Z.le_lt_trans; [exact H|]. apply Z.pow_lt_mono_r; lia.
  - replace d with ((d - k) + k) in H by lia. rewrite Z.pow_add_r in H by lia.
    apply Z.div_le_upper_bound; [lia|]. lia.
Qed.

(** Rounding a mantissa below [2 ^ (D - ex)] gives a float of magnitude
    [D + 1] at most. *)
Lemma binary_round_aux_mag s mx ex lx D :
  0 <= mx < 2 ^ (D - ex) -> ex <= D -> ex <= 971 -> -1074 <= D <= 1022 ->
  B64.mag (D + 1) (SpecFloat.binary_round_aux B64.prec B64.emax s mx ex lx).
Proof.
  intros [H0 Hlt] HD Hex HD'.
  destruct (binary_round_aux_spec s mx ex lx H0) as (m1 & e1 & e2 & He1 & Hm1 & He2 & ->).
  rewrite fexp_eq in He1, He2.
  assert (Hd : SpecFloat.Zdigits2 mx <= D - ex) by (apply Zdigits2_le; lia).
  assert (He1D : ex <= e1 <= D) by lia.
  assert (Hs : 0 <= Z.shiftr mx (e1 - ex) < 2 ^ (D - e1)).
  { split; [apply Z.shiftr_nonneg; exact H0|].
    apply shiftr_lt; [lia | lia |].
    replace (D - e1 + (e1 - ex)) with (D - ex) by lia. lia. }
  assert (Hm1' : 0 <= m1 <= 2 ^ (D - e1)) by lia.
  assert (Hm1'' : 0 <= m1 < 2 ^ (D - e1 + 1)).
  { split; [lia|]. rewrite Z.pow_add_r by lia. change (2 ^ 1) with 2. lia. }
  assert (Hd1 : SpecFloat.Zdigits2 m1 <= D - e1 + 1) by (apply Zdigits2_le; lia).
  assert (He2' : e1 <= e2 <= 971) by lia.
  assert (Hs2 : 0 <= Z.shiftr m1 (e2 - e1)) by (apply Z.shiftr_nonneg; lia).
  assert (Hu := shiftr_le_pow m1 (e2 - e1) (D - e1) ltac:(lia) ltac:(lia) Hm1').
  replace (D - e1 - (e2 - e1)) with (D - e2) in Hu by lia.
  destruct (Z.shiftr m1 (e2 - e1)) as [|p|p]; [exact I| |lia].
  destruct (Z.leb_spec e2 971); [|lia]. simpl.
  destruct (Z.lt_ge_cases (D - e2) 0) as [Hn|Hn].
  - rewrite Z.pow_neg_r in Hu by exact Hn. lia.
  - replace (D + 1 - e2) with (D - e2 + 1) by lia.
    rewrite Z.pow_add_r by lia. change (2 ^ 1) with 2. lia.
Qed.

Lemma binary_round_mag s m e D :
  Z.pos m < 2 ^ (D - e) -> e <= 971 -> -1074 <= D <= 1022 ->
  B64.mag (D + 1) (SpecFloat.binary_round B64.prec B64.emax s m e).
Proof.
  intros Hm He HD. unfold SpecFloat.binary_round.
  assert (HeD : e < D).
  { destruct (Z.lt_ge_cases (D - e) 1) as [Hn|]; [|lia].
    destruct (Z.eq_dec (D - e) 0) as [E|]; [rewrite E in Hm; simpl in Hm; lia|].
    rewrite Z.pow_neg_r in Hm by lia. lia. }
  destruct (shl_align_spec m e
              (SpecFloat.fexp B64.prec B64.emax (Z.pos (SpecFloat.digits2_pos m) + e)))
    as [H2 H1].
  destruct (SpecFloat.shl_align m e _) as [mz ez]. cbn [fst snd] in H1, H2.
  apply binary_round_aux_mag; try lia.
  split; [lia|]. rewrite H1.
  replace (D - ez) with ((D - e) + (e - ez)) by lia.
  rewrite Z.pow_add_r by lia.
  apply Z.mul_lt_mono_pos_r; [apply Z.pow_pos_nonneg; lia | exact Hm].
Qed.

Lemma binary_normalize_mag z e D :
  Z.abs z < 2 ^ (D - e) -> e <= 971 -> -1074 <= D <= 1022 ->
  B64.mag (D + 1) (SpecFloat.binary_normalize B64.prec B64.emax z e false).
Proof.
  intros Hz He HD. destruct z as [|p|p]; [exact I| |];
    apply binary_round_mag; auto.
Qed.

(** The float of a positive integer is finite with an exponent of at least
    -52, or infinite. *)
Lemma of_Z_at_least n : 1 <= n -> B64.at_least (-52) (B64.of_Z n).
Proof.
  intros Hn. destruct n as [|p|p]; try lia.
  unfold B64.of_Z, SpecFloat.binary_normalize, SpecFloat.binary_round.
  assert (Hd := Zdigits2_pos (Z.pos p) ltac:(lia)). simpl SpecFloat.Zdigits2 in Hd.
  rewrite fexp_eq. unfold SpecFloat.shl_align.
  set (d := Z.pos (SpecFloat.digits2_pos p)) in *.
  destruct (Z.max (d + 0 - 53) (-1074) - 0) as [|k|k] eqn:E.
  - apply at_least_weaken with 0; [lia|].
    apply binary_round_aux_normal; [lia|]. simpl SpecFloat.Zdigits2. fold d. lia.
  - apply at_least_weaken with 0; [lia|].
    apply binary_round_aux_normal; [lia|]. simpl SpecFloat.Zdigits2. fold d. lia.
  - apply at_least_weaken with (Z.max (d + 0 - 53) (-1074)); [lia|].
    apply binary_round_aux_normal; [lia|].
    assert (H1 := Zdigits2_pos (Z.pos (Pos.iter xO p k)) ltac:(lia)). lia.
Qed.

Lemma of_Z_mag n k : 0 <= k <= 1022 -> 0 <= n < 2 ^ k -> B64.mag (k + 1) (B64.of_Z n).
Proof.
  intros Hk Hn. apply binary_normalize_mag; [|lia|lia].
  rewrite Z.sub_0_r. lia.
Qed.

Lemma one_eq : B64.one = SpecFloat.S754_finite false 4503599627370496 (-52).
Proof. reflexivity. Qed.

Lemma zero_eq : B64.zero = SpecFloat.S754_zero false.
Proof. reflexivity. Qed.

Lemma sub_one_zero : B64.sub B64.one B64.zero = B64.one.
Proof. reflexivity. Qed.

(** [1 / y] neither overflows nor is undefined when [y] is at least 1. *)
Lemma div_one_finite s m e :
  -52 <= e ->
  B64.not_nan_inf (B64.div B64.one (SpecFloat.S754_finite s m e)).
Proof.
  intros He. rewrite one_eq.
  unfold B64.div, SpecFloat.SFdiv, SpecFloat.SFdiv_core_binary.
  change (SpecFloat.Zdigits2 4503599627370496) with 53.
  rewrite fexp_eq.
  set (d2 := SpecFloat.Zdigits2 (Z.pos m)).
  set (e' := Z.min (Z.max (53 + -52 - (d2 + e) - 53) (-1074)) (-52 - e)).
  set (sh := -52 - e - e').
  set (m' := match sh with
             | 0 => 4503599627370496
             | Z.pos _ => Z.shiftl 4503599627370496 sh
             | Z.neg _ => 0
             end).
  assert (Hsh : 0 <= sh) by (unfold sh, e'; lia).
  assert (Hm' : m' = 2 ^ (52 + sh)).
  { unfold m'. destruct sh as [|k|k] eqn:E; [reflexivity| |lia].
    rewrite Z.shiftl_mul_pow2 by lia. rewrite Z.pow_add_r by lia. reflexivity. }
  clearbody m'.
  pose proof (Z.div_eucl_eq m' (Z.pos m) ltac:(lia)) as Hq.
  pose proof (Z.mod_pos_bound m' (Z.pos m) ltac:(lia)) as Hr.
  unfold Z.modulo in Hr.
  destruct (Z.div_eucl m' (Z.pos m)) as [q r].
  assert (H2 : 0 < 2 ^ (52 + sh)) by (apply Z.pow_pos_nonneg; lia).
  assert (Hq0 : 0 <= q) by nia.
  assert (Hqm : q <= m') by nia.
  apply binary_round_aux_finite with (D := Z.max (1 - e) (-1074)).
  - split; [exact Hq0|].
    apply Z.le_lt_trans with (2 ^ (52 + sh)); [lia|].
    apply Z.pow_lt_mono_r; [lia| |]; unfold sh, e' in *; lia.
  - unfold e'; lia.
  - unfold e'; lia.
  - lia.
Qed.

Lemma div_one_of_Z n : 1 <= n -> B64.not_nan_inf (B64.div B64.one (B64.of_Z n)).
Proof.
  intros Hn. assert (H := of_Z_at_least n Hn).
  destruct (B64.of_Z n) as [s|s| |s m e]; try contradiction.
  - rewrite one_eq. exact I.
  - apply div_one_finite. exact H.
Qed.

(** [1 / y] does not underflow to zero for a [y] between 1 and [2 ^ 54]. *)
Lemma div_one_nonzero s m e :
  -52 <= e -> Z.pos m < 2 ^ (54 - e) ->
  exists s' m' e',
    B64.div B64.one (SpecFloat.S754_finite s m e) = SpecFloat.S754_finite s' m' e'.
Proof.
  intros He Hm.
  assert (Hf := div_one_finite s m e He).
  assert (He' := mag_exponent 54 s m e Hm).
  assert (Hn : B64.at_least (-1074) (B64.div B64.one (SpecFloat.S754_finite s m e))).
  { rewrite one_eq.
    unfold B64.div, SpecFloat.SFdiv, SpecFloat.SFdiv_core_binary.
    change (SpecFloat.Zdigits2 4503599627370496) with 53.
    rewrite fexp_eq.
    assert (Hd2 : SpecFloat.Zdigits2 (Z.pos m) <= 54 - e) by (apply Zdigits2_le; lia).
    assert (Hu := Zdigits2_upper (Z.pos m) ltac:(lia)).
    assert (Hp := Zdigits2_pos (Z.pos m) ltac:(lia)).
    set (d2 := SpecFloat.Zdigits2 (Z.pos m)) in *.
    set (e' := Z.min (Z.max (53 + -52 - (d2 + e) - 53) (-1074)) (-52 - e)).
    set (sh := -52 - e - e').
    set (m' := match sh with
               | 0 => 4503599627370496
               | Z.pos _ => Z.shiftl 4503599627370496 sh
               | Z.neg _ => 0
               end).
    assert (Hsh : d2 <= sh) by (unfold sh, e'; lia).
    assert (Hm' : m' = 2 ^ 52 * 2 ^ sh).
    { unfold m'. destruct sh as [|k|k] eqn:E; [lia| |lia].
      rewrite Z.shiftl_mul_pow2 by lia. reflexivity. }
    clearbody m'.
    pose proof (Z.div_eucl_eq m' (Z.pos m) ltac:(lia)) as Hq.
    pose proof (Z.mod_pos_bound m' (Z.pos m) ltac:(lia)) as Hr.
    unfold Z.modulo in Hr.
    destruct (Z.div_eucl m' (Z.pos m)) as [q r].
    assert (Hle : Z.pos m <= 2 ^ sh).
    { apply Z.le_trans with (2 ^ d2); [lia|]. apply Z.pow_le_mono_r; lia. }
    assert (Hq52 : 2 ^ 52 <= q).
    { destruct (Z.lt_ge_cases q (2 ^ 52)) as [Hlt|]; [|assumption]. exfalso.
      assert (Z.pos m * (q + 1) <= Z.pos m * 2 ^ 52)
        by (apply Z.mul_le_mono_nonneg_l; lia).
      assert (2 ^ 52 * Z.pos m <= 2 ^ 52 * 2 ^ sh)
        by (apply Z.mul_le_mono_nonneg_l; lia).
      lia. }
    assert (Hdq : 53 <= SpecFloat.Zdigits2 q).
    { assert (Huq := Zdigits2_upper q ltac:(lia)).
      assert (Hnn := Zdigits2_nonneg q).
      destruct (Z.lt_ge_cases (SpecFloat.Zdigits2 q) 53) as [Hlt|]; [|assumption].
      exfalso.
      assert (2 ^ SpecFloat.Zdigits2 q <= 2 ^ 52) by (apply Z.pow_le_mono_r; lia).
      lia. }
    apply at_least_weaken with e'; [unfold e'; lia|].
    apply binary_round_aux_normal; [lia|]. unfold e'. lia. }
  destruct (B64.div B64.one (SpecFloat.S754_finite s m e)) as [| | |s' m' e'];
    try contradiction.
  eauto.
Qed.

Lemma eqb_finite_zero s m e :
  B64.eqb (SpecFloat.S754_finite s m e) B64.zero = false.
Proof.
  rewrite zero_eq. unfold B64.eqb, B64.value.
  match goal with |- Qeq_bool ?q 0 = false => destruct (Qeq_bool q 0) eqn:E end;
    [|reflexivity].
  exfalso. apply Qeq_bool_eq in E. unfold Qeq in E.
  assert (H2 : 0 < 2 ^ e \/ e < 0).
  { destruct (Z.lt_ge_cases e 0); [now right | left; apply Z.pow_pos_nonneg; lia]. }
  destruct (Z.leb_spec 0 e); destruct s; cbn [Qnum Qden inject_Z] in E; nia.
Qed.

Lemma div_zero_of_Z n : 1 <= n -> B64.is_zero (B64.div B64.zero (B64.of_Z n)).
Proof.
  intros Hn. assert (H := of_Z_at_least n Hn). rewrite zero_eq.
  destruct (B64.of_Z n) as [s|s| |s m e]; try contradiction; exact I.
Qed.

Lemma mul_zero_l x : B64.not_nan_inf x -> B64.is_zero (B64.mul B64.zero x).
Proof. rewrite zero_eq. destruct x; simpl; try contradiction; auto. Qed.

Lemma mul_zero_one x : B64.is_zero x -> B64.is_zero (B64.mul x B64.one).
Proof. rewrite one_eq. destruct x; simpl; try contradiction; auto. Qed.

Lemma add_zero_r x : B64.is_zero x -> B64.add x B64.zero = B64.zero.
Proof.
  rewrite zero_eq. destruct x as [[]| | |]; simpl; try contradiction; reflexivity.
Qed.

(** A quotient by a float of at least 1. *)
Lemma div_mag D x y :
  B64.mag D x -> B64.at_least (-52) y -> -1074 <= D <= 900 ->
  B64.mag (D + 53) (B64.div x y).
Proof.
  intros Hx Hy HD.
  destruct x as [sx| | |sx mx ex]; try contradiction;
    destruct y as [sy|sy| |sy my ey]; try contradiction; try exact I.
  assert (Hex := mag_exponent _ _ _ _ Hx). simpl in Hx, Hy.
  unfold B64.div, SpecFloat.SFdiv, SpecFloat.SFdiv_core_binary.
  rewrite fexp_eq.
  set (d1 := SpecFloat.Zdigits2 (Z.pos mx)).
  set (d2 := SpecFloat.Zdigits2 (Z.pos my)).
  set (e' := Z.min (Z.max (d1 + ex - (d2 + ey) - 53) (-1074)) (ex - ey)).
  set (sh := ex - ey - e').
  set (m' := match sh with
             | 0 => Z.pos mx
             | Z.pos _ => Z.shiftl (Z.pos mx) sh
             | Z.neg _ => 0
             end).
  assert (Hsh : 0 <= sh) by (unfold sh, e'; lia).
  assert (Hm' : m' = Z.pos mx * 2 ^ sh).
  { unfold m'. destruct sh as [|k|k] eqn:E; [lia| |lia].
    rewrite Z.shiftl_mul_pow2 by lia. reflexivity. }
  clearbody m'.
  pose proof (Z.div_eucl_eq m' (Z.pos my) ltac:(lia)) as Hq.
  pose proof (Z.mod_pos_bound m' (Z.pos my) ltac:(lia)) as Hr.
  unfold Z.modulo in Hr.
  destruct (Z.div_eucl m' (Z.pos my)) as [q r].
  assert (H2 : 0 < 2 ^ sh) by (apply Z.pow_pos_nonneg; lia).
  assert (Hq0 : 0 <= q) by nia.
  assert (Hqm : q <= m') by nia.
  replace (D + 53) with (D + 52 + 1) by lia.
  apply binary_round_aux_mag; try (unfold e'; lia).
  split; [exact Hq0|].
  apply Z.le_lt_trans with m'; [exact Hqm|]. rewrite Hm'.
  apply Z.lt_le_trans with (2 ^ (D - ex) * 2 ^ sh).
  - apply Z.mul_lt_mono_pos_r; [exact H2 | exact Hx].
  - rewrite <- Z.pow_add_r by lia. apply Z.pow_le_mono_r; [lia|].
    unfold sh. lia.
Qed.

Lemma aligned_sum_mag mx ex my ey Dx Dy z :
  Z.pos mx < 2 ^ (Dx - ex) -> Z.pos my < 2 ^ (Dy - ey) ->
  let ez := Z.min ex ey in
  Z.abs z <= Z.pos (SpecFloat.shl_align mx ex ez).1
             + Z.pos (SpecFloat.shl_align my ey ez).1 ->
  -1074 <= Z.max Dx Dy <= 970 ->
  B64.mag (Z.max Dx Dy + 2)
      (SpecFloat.binary_normalize B64.prec B64.emax z ez false).
Proof.
  intros Hx Hy ez Hz HD.
  assert (Hex := mag_exponent Dx false mx ex Hx).
  assert (Hey := mag_exponent Dy false my ey Hy).
  destruct (shl_align_spec mx ex ez) as [Ha2 Ha1].
  destruct (shl_align_spec my ey ez) as [Hb2 Hb1].
  cbv zeta in Ha1, Ha2, Hb1, Hb2.
  rewrite Ha2 in Ha1. rewrite Hb2 in Hb1.
  replace (Z.min ex ez) with ez in Ha1 by lia.
  replace (Z.min ey ez) with ez in Hb1 by lia.
  set (D := Z.max Dx Dy) in *.
  replace (D + 2) with (D + 1 + 1) by lia.
  apply binary_normalize_mag; [|lia|lia].
  assert (Hpa : Z.pos (SpecFloat.shl_align mx ex ez).1 < 2 ^ (D - ez)).
  { rewrite Ha1.
    apply Z.lt_le_trans with (2 ^ (Dx - ex) * 2 ^ (ex - ez)).
    - apply Z.mul_lt_mono_pos_r; [apply Z.pow_pos_nonneg; lia | exact Hx].
    - rewrite <- Z.pow_add_r by lia. apply Z.pow_le_mono_r; lia. }
  assert (Hpb : Z.pos (SpecFloat.shl_align my ey ez).1 < 2 ^ (D - ez)).
  { rewrite Hb1.
    apply Z.lt_le_trans with (2 ^ (Dy - ey) * 2 ^ (ey - ez)).
    - apply Z.mul_lt_mono_pos_r; [apply Z.pow_pos_nonneg; lia | exact Hy].
    - rewrite <- Z.pow_add_r by lia. apply Z.pow_le_mono_r; lia. }
  replace (D + 1 - ez) with (D - ez + 1) by lia.
  rewrite Z.pow_add_r by lia. change (2 ^ 1) with 2. lia.
Qed.

Lemma sub_mag Dx Dy x y :
  B64.mag Dx x -> B64.mag Dy y -> -1074 <= Z.max Dx Dy <= 970 ->
  B64.mag (Z.max Dx Dy + 2) (B64.sub x y).
Proof.
  intros Hx Hy HD.
  destruct x as [sx| | |sx mx ex]; try contradiction;
    destruct y as [sy| | |sy my ey]; try contradiction.
  - destruct sx, sy; exact I.
  - apply mag_weaken with Dy; [lia | exact Hy].
  - apply mag_weaken with Dx; [lia | exact Hx].
  - unfold B64.sub, SpecFloat.SFsub.
    apply aligned_sum_mag with (mx := mx) (my := my); auto.
    generalize (SpecFloat.shl_align mx ex (Z.min ex ey)).1,
      (SpecFloat.shl_align my ey (Z.min ex ey)).1.
    intros a b. destruct sx, sy; simpl SpecFloat.cond_Zopp; lia.
Qed.

Lemma mul_mag Dx Dy x y :
  B64.mag Dx x -> B64.mag Dy y -> -1074 <= Dx + Dy <= 1022 -> Dx <= 485 -> Dy <= 485 ->
  B64.mag (Dx + Dy + 1) (B64.mul x y).
Proof.
  intros Hx Hy HD HDx HDy.
  destruct x as [sx| | |sx mx ex]; try contradiction;
    destruct y as [sy| | |sy my ey]; try contradiction; try exact I.
  assert (Hex := mag_exponent _ _ _ _ Hx).
  assert (Hey := mag_exponent _ _ _ _ Hy).
  simpl in Hx, Hy.
  unfold B64.mul, SpecFloat.SFmul.
  apply binary_round_aux_mag; try lia.
  split; [lia|]. rewrite Pos2Z.inj_mul.
  replace (Dx + Dy - (ex + ey)) with ((Dx - ex) + (Dy - ey)) by lia.
  rewrite Z.pow_add_r by lia.
  apply Z.mul_lt_mono_nonneg; lia.
Qed.

Lemma b64_linspace_length start stop num :
  length (B64.np_linspace start stop num) = num.
Proof.
  unfold B64.np_linspace.
  destruct (1 <? num)%nat.
  - rewrite length_insert.
    destruct (B64.eqb _ _); rewrite !length_map, length_seq; reflexivity.
  - rewrite !length_map, length_seq. reflexivity.
Qed.

Lemma b64_linspace_last start stop num :
  (2 <= num)%nat ->
  B64.np_linspace start stop num !! (num - 1)%nat = Some stop.
Proof.
  intros H. unfold B64.np_linspace.
  destruct (Nat.ltb_spec 1 num) as [_|]; [|lia].
  apply list_lookup_insert_eq.
  destruct (B64.eqb _ _); rewrite !length_map, length_seq; lia.
Qed.

Lemma b64_linspace_inner start stop num i :
  (i < num)%nat -> (i <> num - 1)%nat \/ (num <= 1)%nat ->
  B64.np_linspace start stop num !! i = Some (B64.linspace_entry start stop num i).
Proof.
  intros Hi Hne. unfold B64.np_linspace, B64.linspace_entry.
  destruct (Nat.ltb_spec 1 num) as [H1|H1].
  - rewrite list_lookup_insert_ne by lia.
    destruct (B64.eqb _ _); rewrite !list_lookup_fmap, lookup_seq_lt by lia;
      reflexivity.
  - rewrite !list_lookup_fmap, lookup_seq_lt by lia. reflexivity.
Qed.

Lemma linspace_entry_first num :
  (1 <= num)%nat -> B64.linspace_entry B64.zero B64.one num 0 = B64.zero.
Proof.
  intros H. unfold B64.linspace_entry. rewrite sub_one_zero.
  change (B64.of_Z (Z.of_nat 0)) with B64.zero.
  apply add_zero_r.
  destruct (Nat.ltb_spec 1 num) as [H1|H1].
  - destruct (B64.eqb _ _).
    + apply mul_zero_one, div_zero_of_Z. lia.
    + apply mul_zero_l, div_one_of_Z. lia.
  - apply mul_zero_one. exact I.
Qed.

Lemma b64_linspace_first num :
  (1 <= num)%nat -> B64.np_linspace B64.zero B64.one num !! 0%nat = Some B64.zero.
Proof.
  intros H. rewrite b64_linspace_inner by lia.
  rewrite linspace_entry_first by exact H. reflexivity.
Qed.

(** The rows of [np.linspace(0, 1, num)] below the last one: the row
    number times the step [1 / (num - 1)]. *)
Lemma b64_linspace_step num i :
  (i < num - 1)%nat -> Z.of_nat num <= 2 ^ 53 ->
  B64.np_linspace B64.zero B64.one num !! i
  = Some (B64.add (B64.mul (B64.of_Z (Z.of_nat i))
                           (B64.div B64.one (B64.of_Z (Z.of_nat num - 1))))
                  B64.zero).
Proof.
  intros Hi Hn. rewrite b64_linspace_inner by lia.
  unfold B64.linspace_entry. rewrite sub_one_zero.
  destruct (Nat.ltb_spec 1 num) as [_|]; [|lia].
  assert (Ha := of_Z_at_least (Z.of_nat num - 1) ltac:(lia)).
  assert (Hm := of_Z_mag (Z.of_nat num - 1) 53 ltac:(lia) ltac:(lia)).
  destruct (B64.of_Z (Z.of_nat num - 1)) as [| | |s m e]; try contradiction.
  destruct (div_one_nonzero s m e Ha Hm) as (s' & m' & e' & ->).
  rewrite eqb_finite_zero. reflexivity.
Qed.

(** The red value of a column is computed without an error. *)
Lemma column_attack_mag grad_w col :
  (col < grad_w)%nat -> Z.of_nat grad_w <= 2 ^ 53 ->
  B64.mag 107 (B64.column_attack grad_w col).
Proof.
  intros Hc Hw. unfold B64.column_attack.
  destruct (Nat.ltb_spec 1 grad_w) as [H1|H1].
  - apply (div_mag 54); [|apply of_Z_at_least; lia|lia].
    apply (of_Z_mag _ 53); lia.
  - vm_compute. reflexivity.
Qed.

Lemma column_red_value_some grad_w col :
  (col < grad_w)%nat -> Z.of_nat grad_w <= 2 ^ 53 ->
  exists q,
    B64.value (B64.mul (B64.of_Z 255)
                 (B64.sub B64.one (B64.column_attack grad_w col))) = Fin q /\
    B64.column_red_value (B64.column_attack grad_w col)
      = Some (Zclip (py_round q) 0 255).
Proof.
  intros Hc Hw.
  assert (Ha := column_attack_mag grad_w col Hc Hw).
  assert (H1 : B64.mag 1 B64.one) by (vm_compute; reflexivity).
  assert (Hs := sub_mag 1 107 _ _ H1 Ha ltac:(lia)).
  assert (H255 : B64.mag 9 (B64.of_Z 255)) by (apply (of_Z_mag _ 8); lia).
  assert (Hm := mul_mag _ _ _ _ H255 Hs ltac:(lia) ltac:(lia) ltac:(lia)).
  destruct (mag_value _ _ Hm) as [q Hq].
  exists q. split; [exact Hq|].
  unfold B64.column_red_value, B64.py_round_float. rewrite Hq. reflexivity.
Qed.

End Binary64.

(** ** The claims about the resampler *)

(** C7. The final step clamps every sample of the float result to
    [0, 255] and casts it to eight bits by truncation, which after the
    clamp is the floor: a sample at or below 0 is stored as 0, one at or
    above 255 as 255, one in between as its floor, so every stored sample
    is [floor (clamp v 0 255)] and lies in [0, 255]; and the output has the
    height, width and channel count of the input gradient. *)
Theorem final_quantization (gradient erosion : ndarray) (fi fo ad : Q) :
  (forall v, quantize_sample v = Qfloor (Qclip v 0 255) /\
             in_byte_range (quantize_sample v) /\
             (v <= 0 -> quantize_sample v = 0%Z) /\
             (255 <= v -> quantize_sample v = 255%Z) /\
             (0 <= v <= 255 -> quantize_sample v = Qfloor v)) /\
  (forall out,
      remap_gradient gradient erosion fi fo ad = inr out ->
      exists result,
        remap_result gradient erosion fi fo ad = inr result /\
        out = map (map (map (fun v => Qfloor (Qclip v 0 255)))) result /\
        has_shape (height gradient) (width gradient) (channels gradient) out /\
        Forall (Forall (Forall in_byte_range)) out).
Proof.
  split.
  - intros v. destruct (quantize_sample_floor v) as [Hf Hb].
    split; [exact Hf|]. split; [exact Hb|]. unfold in_byte_range in Hb.
    split; [|split].
    + intros H. pose proof (quantize_sample_mono v 0 H) as Hm.
      change (quantize_sample 0) with 0%Z in Hm. lia.
    + intros H. pose proof (quantize_sample_mono 255 v H) as Hm.
      change (quantize_sample 255) with 255%Z in Hm. lia.
    + intros H. rewrite Hf. now rewrite Qclip_id.
  - intros out H. unfold remap_gradient in H.
    apply bind_inr in H as (result & Hres & H). inversion H; subst.
    exists result. split; [exact Hres|]. split; [apply quantize_floor|].
    split; [|apply quantize_bytes].
    apply quantize_shape. eapply remap_result_shape, Hres.
Qed.

Lemma final_quantization_witness :
  (quantize_sample (-3) = 0%Z /\ quantize_sample 300 = 255%Z /\
   quantize_sample (401 # 2) = 200%Z) /\
  exists out,
    remap_gradient gradient_4x4 erosion_2x2 (1 # 2) 2 2 = inr out /\
    has_shape 4 4 1 out /\
    Forall (Forall (Forall in_byte_range)) out.
Proof.
  destruct (final_quantization gradient_4x4 erosion_2x2 (1 # 2) 2 2) as [P H].
  split.
  - destruct (P (-3)) as (_ & _ & Hlow & _).
    destruct (P 300) as (_ & _ & _ & Hhigh & _).
    destruct (P (401 # 2)) as (_ & _ & _ & _ & Hmid).
    split; [apply Hlow; lra|]. split; [apply Hhigh; lra|].
    rewrite Hmid by lra. reflexivity.
  - eexists. split; [vm_compute; reflexivity|].
    destruct (H _ ltac:(vm_compute; reflexivity)) as (result & _ & _ & Hs & Hb).
    split; [exact Hs | exact Hb].
Defined.

(** C8.  The claim fails on the code: with a zero animation duration
    (fade_in 0.5, fade_out 2.0, the 4 x 4 gradient and the 2 x 2 erosion
    texture of the design document) the division [0 / 0] of row 0 in column
    0 is NaN, which neither clip removes, and the lookup raises IndexError.
    The same in binary64: column 0 reads the table entry 255, which is 255,
    its first [src_x] is NaN and the sample at it raises. *)
Theorem remap_zero_duration_raises :
  (1 <= channels gradient_4x4)%nat /\ (2 <= channels erosion_2x2)%nat /\
  0 <= 1 # 2 /\ 0 <= 2 /\ 0 <= 0 /\
  remap_gradient gradient_4x4 erosion_2x2 (1 # 2) 2 0 = inl IndexError /\
  (exists t green, build_red_to_green_map erosion_2x2 = inr t /\
                   t !! 255%nat = Some green /\ green == 255) /\
  B64.column_red_value (B64.column_attack 4 0) = Some 255%Z /\
  exists src_x src_y,
    (B64.column_coords 4 4 B64.half (B64.of_Z 2) B64.zero (B64.of_Z 255) 0).1
      !! 0%nat = Some src_x /\
    (B64.column_coords 4 4 B64.half (B64.of_Z 2) B64.zero (B64.of_Z 255) 0).2
      !! 0%nat = Some src_y /\
    B64.is_nan src_x = true /\
    B64.bilinear_sample_at gradient_4x4 src_x src_y = inl IndexError.
Proof.
  split; [simpl; lia|]. split; [simpl; lia|].
  split; [lra|]. split; [lra|]. split; [lra|].
  split; [vm_compute; reflexivity|].
  split.
  { eexists _, _. split; [vm_compute; reflexivity|].
    split; [reflexivity | reflexivity]. }
  split; [vm_compute; reflexivity|].
  eexists _, _. split; [vm_compute; reflexivity|].
  split; [vm_compute; reflexivity|].
  split; reflexivity.
Qed.

(** C5.  The guard misses its purpose on the code in two ways.  In
    binary64, with fade_in 1e16 in the last of two columns (attack 1),
    fade_out 1, duration 1 and the table entry 0, [key_press] is 1e16,
    [key_release] is replaced by [key_press + 0.001], which rounds to 1e16
    again: the time window is zero wide.  And with a zero duration
    (fade_in 1, fade_out 1, a gradient of one row and two columns) column 0
    is degenerate ([key_release <= key_press], table entry 255), the guard
    sets the window to 0.001, and the sampling still raises IndexError:
    row 0 has [src_x = 0 / 0], in the exact reading and in binary64. *)
Theorem degenerate_guard_misses :
  (let key_press :=
     B64.column_key_press (B64.of_Z (10 ^ 16)) (B64.column_attack 2 1) in
   let key_release :=
     B64.column_key_release B64.one B64.one key_press B64.zero in
   B64.value key_press = Fin (inject_Z (10 ^ 16)) /\
   key_release = key_press /\
   B64.sub key_release key_press = B64.zero) /\
  (spec_key_release_raw 1 0 255 <= spec_key_press 1 0 /\
   remap_gradient gradient_2x1 erosion_2x2 1 1 0 = inl IndexError) /\
  (let key_press := B64.column_key_press B64.one (B64.column_attack 2 0) in
   let raw_release :=
     B64.add (B64.sub B64.zero B64.one)
             (B64.mul (B64.div (B64.of_Z 255) (B64.of_Z 255)) B64.one) in
   let key_release :=
     B64.column_key_release B64.one B64.zero key_press (B64.of_Z 255) in
   B64.leb raw_release key_press = true /\
   key_release = B64.add key_press B64.eps /\
   exists src_x src_y,
     (B64.column_coords 1 2 B64.one B64.one B64.zero (B64.of_Z 255) 0).1
       !! 0%nat = Some src_x /\
     (B64.column_coords 1 2 B64.one B64.one B64.zero (B64.of_Z 255) 0).2
       !! 0%nat = Some src_y /\
     B64.is_nan src_x = true /\
     B64.bilinear_sample_at gradient_2x1 src_x src_y = inl IndexError).
Proof.
  split; [|split].
  - vm_compute. repeat split; reflexivity.
  - split; [vm_compute; discriminate | vm_compute; reflexivity].
  - cbv zeta. split; [reflexivity|]. split; [reflexivity|].
    eexists _, _. split; [vm_compute; reflexivity|].
    split; [vm_compute; reflexivity|].
    split; reflexivity.
Qed.

Lemma lookup_map {A B} (f : A -> B) (l : list A) (i : nat) (x : A) :
  l !! i = Some x -> map f l !! i = Some (f x).
Proof.
  revert i. induction l as [|a l IH]; intros [|i] H; simpl in *;
    try discriminate.
  - now inversion H.
  - now apply IH.
Qed.


(** [round]: the nearest integer, and of two nearest ones the even one. *)
Lemma py_round_nearest (q : Q) :
  inject_Z (py_round q) - (1 # 2) <= q <= inject_Z (py_round q) + (1 # 2) /\
  ((q == inject_Z (py_round q) - (1 # 2) \/
    q == inject_Z (py_round q) + (1 # 2)) ->
   Z.even (py_round q) = true).
Proof.
  pose proof (Qfrac_range q) as Hf. unfold py_round. cbv zeta.
  destruct (Qlt_bool (q - inject_Z (Qfloor q)) (1 # 2)) eqn:E1;
    [apply Qlt_bool_iff in E1 | apply Qlt_bool_false in E1].
  - split; [lra|]. intros [H|H]; exfalso; lra.
  - destruct (Qlt_bool (1 # 2) (q - inject_Z (Qfloor q))) eqn:E2;
      [apply Qlt_bool_iff in E2 | apply Qlt_bool_false in E2].
    + rewrite inject_Z_plus. change (inject_Z 1) with 1.
      split; [lra|]. intros [H|H]; exfalso; lra.
    + destruct (Z.even (Qfloor q)) eqn:E3.
      * split; [lra|]. intros _. exact E3.
      * rewrite inject_Z_plus. change (inject_Z 1) with 1.
        split; [lra|]. intros _.
        rewrite Z.add_1_r, Z.even_succ, <- Z.negb_even, E3. reflexivity.
Qed.

(** [np.clip(x, 0, 1)] in binary64, by the value of [x]. *)
Lemma b64_clip_unit (x : B64.b64) :
  match B64.value x with
  | NaN => B64.np_clip x B64.zero B64.one = x
  | NegInf => B64.np_clip x B64.zero B64.one = B64.zero
  | PosInf => B64.np_clip x B64.zero B64.one = B64.one
  | Fin q =>
      (q < 0 -> B64.np_clip x B64.zero B64.one = B64.zero) /\
      (1 < q -> B64.np_clip x B64.zero B64.one = B64.one) /\
      (0 <= q <= 1 -> B64.np_clip x B64.zero B64.one = x)
  end.
Proof.
  destruct (B64.value x) as [q| | |] eqn:Hv.
  - assert (Hn : B64.is_nan x = false)
      by (destruct x; try reflexivity; discriminate Hv).
    unfold B64.np_clip. rewrite Hn. cbv zeta.
    replace (B64.ltb x B64.zero) with (Qlt_bool q 0)
      by (unfold B64.ltb; rewrite Hv; reflexivity).
    destruct (Qlt_bool q 0) eqn:E1;
      [apply Qlt_bool_iff in E1 | apply Qlt_bool_false in E1].
    + replace (B64.ltb B64.one B64.zero) with false by reflexivity.
      split; [reflexivity|]. split; intros H; exfalso; lra.
    + replace (B64.ltb B64.one x)
        with (Qlt_bool (4503599627370496 # 4503599627370496) q)
        by (unfold B64.ltb; rewrite Hv; reflexivity).
      destruct (Qlt_bool (4503599627370496 # 4503599627370496) q) eqn:E2;
        [apply Qlt_bool_iff in E2 | apply Qlt_bool_false in E2].
      * split; [intros H; exfalso; lra|]. split; [reflexivity|].
        intros H; exfalso; lra.
      * split; [intros H; exfalso; lra|]. split; [intros H; exfalso; lra|].
        reflexivity.
  - destruct x as [s|[]| |s m e]; try discriminate Hv. reflexivity.
  - destruct x as [s|[]| |s m e]; try discriminate Hv. reflexivity.
  - destruct x as [s|s| |s m e]; try discriminate Hv; try (destruct s; discriminate Hv).
    reflexivity.
Qed.

(** C2, as the program computes it, in binary64.  For a column [col] of a
    gradient of width [grad_w] and height [grad_h] (array dimensions, here
    at most [2 ^ 53]): [attack] is the float quotient [col / (grad_w - 1)],
    and 0.5 when there is one column; [red_value] exists and is
    [round (255 * (1 - attack))], the integer nearest to the float product
    (the even one at a tie), clamped to 0..255: below 0 it is 0, above 255
    it is 255, otherwise it is kept; the normalized times are [grad_h]
    floats, 0.0 in row 0 (the only row when [grad_h = 1]), 1.0 in row
    [grad_h - 1], and [row * (1 / (grad_h - 1))] in between; every row is
    sampled at [src_x = clip (global_time / animation_duration, 0, 1) *
    (grad_w - 1)] and [src_y = normalized_time * (grad_h - 1)], with
    [global_time = key_press + normalized_time * (key_release - key_press)];
    and the clip sends NaN to NaN, what is below 0 (minus infinity
    included) to 0.0, what is above 1 (plus infinity included) to 1.0 and
    keeps the rest. *)
Theorem remap_column_parameters
    (grad_h grad_w col : nat) (fade_in fade_out duration green : B64.b64) :
  (col < grad_w)%nat ->
  (Z.of_nat grad_w <= 2 ^ 53)%Z -> (Z.of_nat grad_h <= 2 ^ 53)%Z ->
  let attack := B64.column_attack grad_w col in
  let key_press := B64.column_key_press fade_in attack in
  let key_release :=
    B64.column_key_release fade_out duration key_press green in
  let normalized_times := B64.np_linspace B64.zero B64.one grad_h in
  let src :=
    B64.column_coords grad_h grad_w fade_in fade_out duration green col in
  ((1 < grad_w)%nat ->
   attack = B64.div (B64.of_Z (Z.of_nat col))
                    (B64.of_Z (Z.of_nat grad_w - 1))) /\
  (grad_w = 1%nat -> exists a, B64.value attack = Fin a /\ a == 1 # 2) /\
  (exists q red_value,
     B64.value (B64.mul (B64.of_Z 255) (B64.sub B64.one attack)) = Fin q /\
     B64.column_red_value attack = Some red_value /\
     inject_Z (py_round q) - (1 # 2) <= q <= inject_Z (py_round q) + (1 # 2) /\
     ((q == inject_Z (py_round q) - (1 # 2) \/
       q == inject_Z (py_round q) + (1 # 2)) ->
      Z.even (py_round q) = true) /\
     ((py_round q < 0)%Z -> red_value = 0%Z) /\
     ((255 < py_round q)%Z -> red_value = 255%Z) /\
     ((0 <= py_round q <= 255)%Z -> red_value = py_round q) /\
     (0 <= red_value <= 255)%Z) /\
  length normalized_times = grad_h /\
  (grad_h = 1%nat -> normalized_times = [B64.zero]) /\
  ((1 <= grad_h)%nat -> normalized_times !! 0%nat = Some B64.zero) /\
  ((2 <= grad_h)%nat ->
   normalized_times !! (grad_h - 1)%nat = Some B64.one) /\
  (forall row, (row < grad_h - 1)%nat ->
     normalized_times !! row
     = Some (B64.add
               (B64.mul (B64.of_Z (Z.of_nat row))
                        (B64.div B64.one (B64.of_Z (Z.of_nat grad_h - 1))))
               B64.zero)) /\
  (forall row normalized_time,
     normalized_times !! row = Some normalized_time ->
     let global_time :=
       B64.add key_press
               (B64.mul normalized_time (B64.sub key_release key_press)) in
     src.1 !! row
     = Some (B64.mul
               (B64.np_clip (B64.div global_time duration) B64.zero B64.one)
               (B64.of_Z (Z.of_nat grad_w - 1))) /\
     src.2 !! row
     = Some (B64.mul normalized_time (B64.of_Z (Z.of_nat grad_h - 1)))) /\
  (forall x,
     match B64.value x with
     | NaN => B64.np_clip x B64.zero B64.one = x
     | NegInf => B64.np_clip x B64.zero B64.one = B64.zero
     | PosInf => B64.np_clip x B64.zero B64.one = B64.one
     | Fin v =>
         (v < 0 -> B64.np_clip x B64.zero B64.one = B64.zero) /\
         (1 < v -> B64.np_clip x B64.zero B64.one = B64.one) /\
         (0 <= v <= 1 -> B64.np_clip x B64.zero B64.one = x)
     end).
Proof.
  intros Hcol HW HH attack key_press key_release normalized_times src.
  split.
  { intros H1. unfold attack, B64.column_attack.
    apply Nat.ltb_lt in H1. rewrite H1. reflexivity. }
  split.
  { intros ->. eexists. split; [reflexivity | reflexivity]. }
  split.
  { destruct (column_red_value_some grad_w col Hcol HW) as (q & Hq & Hr).
    destruct (py_round_nearest q) as [Hnear Htie].
    exists q, (Zclip (py_round q) 0 255).
    split; [exact Hq|]. split; [exact Hr|].
    split; [exact Hnear|]. split; [exact Htie|].
    unfold Zclip. repeat split; lia. }
  split; [apply b64_linspace_length|].
  split; [intros ->; reflexivity|].
  split; [apply b64_linspace_first|].
  split; [apply b64_linspace_last|].
  split; [intros row Hrow; apply b64_linspace_step; assumption|].
  split; [|apply b64_clip_unit].
  intros row nt Hnt. cbv zeta. unfold src, B64.column_coords. cbn [fst snd].
  split.
  - apply (lookup_map
             (fun g => B64.mul
                         (B64.np_clip (B64.div g duration) B64.zero B64.one)
                         (B64.of_Z (Z.of_nat grad_w - 1)))).
    apply (lookup_map
             (fun t => B64.add key_press
                         (B64.mul t (B64.sub key_release key_press)))).
    exact Hnt.
  - apply (lookup_map (fun t => B64.mul t (B64.of_Z (Z.of_nat grad_h - 1)))).
    exact Hnt.
Qed.

Lemma remap_column_parameters_witness :
  B64.column_red_value (B64.column_attack 11 7) = Some 77%Z /\
  B64.np_linspace B64.zero B64.one 8 !! 0%nat = Some B64.zero /\
  B64.np_linspace B64.zero B64.one 8 !! 7%nat = Some B64.one /\
  exists normalized_time src_y,
    B64.np_linspace B64.zero B64.one 8 !! 5%nat = Some normalized_time /\
    (B64.column_coords 8 11 (B64.of_Z 2) (B64.of_Z 2) (B64.of_Z 4)
                       (B64.of_Z 128) 7).2 !! 5%nat = Some src_y /\
    src_y = B64.mul normalized_time (B64.of_Z 7) /\
    B64.value src_y = Fin (5629499534213119 # 1125899906842624).
Proof.
  destruct (remap_column_parameters 8 11 7 (B64.of_Z 2) (B64.of_Z 2)
              (B64.of_Z 4) (B64.of_Z 128))
    as (_ & _ & (q & r & _ & Hr & _) & _ & _ & H0 & H7 & Hrows & Hsrc & _);
    [lia | lia | lia |].
  split.
  { assert (E := Hr). vm_compute in E. injection E as <-. exact Hr. }
  split; [apply H0; lia|]. split; [apply H7; lia|].
  eexists _, _. split; [apply Hrows; lia|].
  destruct (Hsrc 5%nat _ (Hrows 5%nat ltac:(lia))) as [_ Hy].
  split; [exact Hy|]. split; [reflexivity|]. vm_compute. reflexivity.
Defined.

(** * Further properties of the code *)

(** ** bilinear_sample *)

(** The value of a sample at finite coordinates. *)
Lemma bilinear_sample_at_value (img : ndarray) (x y : Q) :
  (1 <= width img)%nat -> (1 <= height img)%nat ->
  let cx := Qclip x 0 (inject_Z (Z.of_nat (width img) - 1)) in
  let cy := Qclip y 0 (inject_Z (Z.of_nat (height img) - 1)) in
  let x0 := Z.to_nat (Qfloor cx) in
  let y0 := Z.to_nat (Qfloor cy) in
  let x1 := Z.to_nat (Z.min (Qfloor cx + 1) (Z.of_nat (width img) - 1)) in
  let y1 := Z.to_nat (Z.min (Qfloor cy + 1) (Z.of_nat (height img) - 1)) in
  ((x0 < width img)%nat /\ (x1 < width img)%nat /\
   (y0 < height img)%nat /\ (y1 < height img)%nat) /\
  bilinear_sample_at img (Fin x) (Fin y)
  = inr (blend_pixels (cx - inject_Z (Qfloor cx)) (cy - inject_Z (Qfloor cy))
                      (pixel img y0 x0) (pixel img y0 x1)
                      (pixel img y1 x0) (pixel img y1 x1)).
Proof.
  intros HW HH cx cy x0 y0 x1 y1.
  destruct (neighbours_in_range _ x HW) as [Hx0 Hx1].
  destruct (neighbours_in_range _ y HH) as [Hy0 Hy1].
  fold cx in Hx0, Hx1. fold cy in Hy0, Hy1.
  split; [subst x0 x1 y0 y1; lia|].
  unfold bilinear_sample_at, np_clip. fold cx cy.
  now rewrite !getitem_in_range by assumption.
Qed.

Lemma Forall2_map_seq {A} (R : A -> A -> Prop) (f g : nat -> A) (ks : list nat) :
  (forall k, k ∈ ks -> R (f k) (g k)) -> Forall2 R (map f ks) (map g ks).
Proof.
  induction ks as [|k ks IH]; intros H; simpl; constructor.
  - apply H. left.
  - apply IH. intros k' Hk'. apply H. now right.
Qed.

Lemma blend_pixels_pixel (img : ndarray) (fx fy : Q) (ya xa yb xb yc xc yd xd : nat) :
  blend_pixels fx fy (pixel img ya xa) (pixel img yb xb)
               (pixel img yc xc) (pixel img yd xd)
  = map (fun k => blend fx fy (inject_Z (item img ya xa k))
                        (inject_Z (item img yb xb k))
                        (inject_Z (item img yc xc k))
                        (inject_Z (item img yd xd k)))
        (seq 0 (channels img)).
Proof. unfold pixel. apply blend_pixels_map. Qed.

(** X1. At a grid point the sample is the pixel itself. *)
Theorem bilinear_sample_grid_point (img : ndarray) (i j : nat) :
  (i < width img)%nat -> (j < height img)%nat ->
  exists v,
    bilinear_sample_at img (Fin (inject_Z (Z.of_nat i)))
                       (Fin (inject_Z (Z.of_nat j))) = inr v /\
    Forall2 Qeq v (pixel img j i).
Proof.
  intros Hi Hj.
  destruct (bilinear_sample_at_value img (inject_Z (Z.of_nat i))
              (inject_Z (Z.of_nat j))) as [_ Hv]; [lia | lia |].
  eexists. split; [exact Hv|].
  rewrite !Qclip_id by (split; [change 0 with (inject_Z 0)|];
                        rewrite <- Zle_Qle; lia).
  rewrite !Qfloor_Z, !Nat2Z.id, blend_pixels_pixel.
  apply Forall2_map_seq. intros k _. unfold blend.
  assert (Ei : inject_Z (Z.of_nat i) - inject_Z (Z.of_nat i) == 0) by ring.
  assert (Ej : inject_Z (Z.of_nat j) - inject_Z (Z.of_nat j) == 0) by ring.
  rewrite Ei, Ej. ring.
Qed.

Lemma bilinear_sample_grid_point_witness :
  exists v,
    bilinear_sample_at gradient_4x4 (Fin 2) (Fin 1) = inr v /\
    Forall2 Qeq v (pixel gradient_4x4 1 2).
Proof.
  apply (bilinear_sample_grid_point gradient_4x4 2 1); simpl; lia.
Defined.

Lemma np_clip_idem (x : np_float) (lo hi : Q) :
  lo <= hi -> np_clip (np_clip x lo hi) lo hi = np_clip x lo hi.
Proof.
  intros H. destruct x; simpl; try reflexivity;
    now rewrite (Qclip_id (Qclip _ lo hi)) by (apply Qclip_bounds; exact H).
Qed.

(** X3. A coordinate outside the image samples the edge: sampling at a
    coordinate is sampling at the clipped coordinate, so anything left of
    column 0 (also minus infinity) reads at 0 and anything right of the last
    column (also plus infinity) reads at [W - 1]; the same holds for rows. *)
Theorem bilinear_sample_edge_clamp (img : ndarray) (x y : np_float) :
  (1 <= width img)%nat -> (1 <= height img)%nat ->
  let xmax := inject_Z (Z.of_nat (width img) - 1) in
  let ymax := inject_Z (Z.of_nat (height img) - 1) in
  bilinear_sample_at img x y
  = bilinear_sample_at img (np_clip x 0 xmax) (np_clip y 0 ymax) /\
  (forall q, q < 0 -> np_clip (Fin q) 0 xmax = Fin 0) /\
  (forall q, xmax < q -> np_clip (Fin q) 0 xmax = Fin xmax) /\
  np_clip NegInf 0 xmax = Fin 0 /\ np_clip PosInf 0 xmax = Fin xmax /\
  (forall q, q < 0 -> np_clip (Fin q) 0 ymax = Fin 0) /\
  (forall q, ymax < q -> np_clip (Fin q) 0 ymax = Fin ymax) /\
  np_clip NegInf 0 ymax = Fin 0 /\ np_clip PosInf 0 ymax = Fin ymax.
Proof.
  intros HW HH xmax ymax.
  assert (Hx : 0 <= xmax)
    by (change 0 with (inject_Z 0); unfold xmax; rewrite <- Zle_Qle; lia).
  assert (Hy : 0 <= ymax)
    by (change 0 with (inject_Z 0); unfold ymax; rewrite <- Zle_Qle; lia).
  assert (Hlow : forall m q, 0 <= m -> q < 0 -> Qclip q 0 m = 0).
  { intros m q Hm Hq. unfold Qclip.
    destruct (Qlt_bool q 0) eqn:E1; [|apply Qlt_bool_false in E1; exfalso; lra].
    destruct (Qlt_bool m 0) eqn:E2; [apply Qlt_bool_iff in E2; exfalso; lra|].
    reflexivity. }
  assert (Hhigh : forall m q, 0 <= m -> m < q -> Qclip q 0 m = m).
  { intros m q Hm Hq. unfold Qclip.
    destruct (Qlt_bool q 0) eqn:E1; [apply Qlt_bool_iff in E1; exfalso; lra|].
    destruct (Qlt_bool m q) eqn:E2; [reflexivity|].
    apply Qlt_bool_false in E2. exfalso. lra. }
  assert (Hzero : forall m, 0 <= m -> Qclip 0 0 m = 0)
    by (intros m Hm; apply Qclip_id; lra).
  assert (Hmax : forall m, 0 <= m -> Qclip m 0 m = m)
    by (intros m Hm; apply Qclip_id; lra).
  split.
  - unfold bilinear_sample_at. fold xmax ymax.
    now rewrite !np_clip_idem by assumption.
  - simpl. rewrite !Hzero, !Hmax by assumption.
    repeat split; intros; f_equal; auto.
Qed.

Lemma bilinear_sample_edge_clamp_witness :
  bilinear_sample_at gradient_4x4 (Fin (-5)) (Fin (9 # 2))
  = bilinear_sample_at gradient_4x4 (Fin 0) (Fin 3).
Proof.
  destruct (bilinear_sample_edge_clamp gradient_4x4 (Fin (-5)) (Fin (9 # 2)))
    as (H & Hlo & _ & _ & _ & _ & Hhi & _); [simpl; lia | simpl; lia |].
  rewrite H, Hlo, Hhi by reflexivity. reflexivity.
Defined.

(** ** bilinear_sample in binary64 *)

Section Exact.

Local Open Scope Z_scope.

(** A mantissa of at most 53 bits with an exponent in range is kept. *)
Lemma binary_round_aux_exact s m e :
  SpecFloat.Zdigits2 (Z.pos m) <= 53 -> -1074 <= e <= 971 ->
  SpecFloat.binary_round_aux B64.prec B64.emax s (Z.pos m) e SpecFloat.loc_Exact
  = SpecFloat.S754_finite s m e.
Proof.
  intros Hd He.
  assert (Hs : SpecFloat.shr_fexp B64.prec B64.emax (Z.pos m) e SpecFloat.loc_Exact
               = (SpecFloat.Build_shr_record (Z.pos m) false false, e)).
  { unfold SpecFloat.shr_fexp, SpecFloat.shr. rewrite fexp_eq.
    destruct (Z.max (SpecFloat.Zdigits2 (Z.pos m) + e - 53) (-1074) - e)
      as [|k|k] eqn:E; [reflexivity | lia | reflexivity]. }
  unfold SpecFloat.binary_round_aux. rewrite Hs.
  cbn [SpecFloat.shr_m SpecFloat.loc_of_shr_record SpecFloat.round_nearest_even].
  rewrite Hs. cbn [SpecFloat.shr_m].
  replace (e <=? B64.emax - B64.prec) with true; [reflexivity|].
  symmetry. apply Z.leb_le. change (B64.emax - B64.prec) with 971. lia.
Qed.

(** The float of an integer below [2 ^ 53] has the value of the integer. *)
Lemma of_Z_exact n :
  0 <= n < 2 ^ 53 ->
  exists q, B64.value (B64.of_Z n) = Fin q /\ (q == inject_Z n)%Q.
Proof.
  intros [H0 Hn]. destruct n as [|p|p]; [|clear H0|lia].
  { exists 0%Q. split; reflexivity. }
  unfold B64.of_Z, SpecFloat.binary_normalize, SpecFloat.binary_round.
  assert (Hd : SpecFloat.Zdigits2 (Z.pos p) <= 53) by (apply Zdigits2_le; lia).
  assert (Hp := Zdigits2_pos (Z.pos p) ltac:(lia)).
  assert (Hu := Zdigits2_upper (Z.pos p) ltac:(lia)).
  simpl SpecFloat.Zdigits2 in Hd, Hp, Hu.
  destruct (shl_align_spec p 0
              (SpecFloat.fexp B64.prec B64.emax (Z.pos (SpecFloat.digits2_pos p) + 0)))
    as [H2 H1].
  rewrite fexp_eq in H2.
  destruct (SpecFloat.shl_align p 0 _) as [mz ez]. cbn [fst snd] in H1, H2.
  set (d := Z.pos (SpecFloat.digits2_pos p)) in *.
  assert (Hez : ez = d - 53) by lia.
  replace (0 - ez) with (53 - d) in H1 by lia.
  assert (Hmz : Z.pos mz < 2 ^ 53).
  { rewrite H1. replace 53 with (d + (53 - d)) at 2 by lia.
    rewrite Z.pow_add_r by lia.
    apply Z.mul_lt_mono_pos_r; [apply Z.pow_pos_nonneg; lia | exact Hu]. }
  rewrite binary_round_aux_exact; [| apply Zdigits2_le; lia | lia].
  unfold B64.value.
  destruct (Z.leb_spec 0 ez) as [Hle|Hlt].
  - eexists. split; [reflexivity|].
    assert (ez = 0) as -> by lia. replace (53 - d) with 0 in H1 by lia.
    rewrite H1. simpl. unfold Qeq. simpl. lia.
  - eexists. split; [reflexivity|].
    unfold Qeq. cbn [Qnum Qden inject_Z].
    rewrite Z2Pos.id by (apply Z.pow_pos_nonneg; lia).
    rewrite H1. replace (- ez) with (53 - d) by lia. lia.
Qed.

End Exact.

(** [np.clip(x, 0, hi)] of a float that is not NaN lies between 0 and
    [hi]; the infinities are clipped too. *)
Lemma b64_clip_range (x hi : B64.b64) (qhi : Q) :
  B64.is_nan x = false -> B64.value hi = Fin qhi -> 0 <= qhi ->
  exists q, B64.value (B64.np_clip x B64.zero hi) = Fin q /\ 0 <= q <= qhi.
Proof.
  intros Hn Hhi Hq. unfold B64.np_clip. rewrite Hn. cbv zeta.
  assert (Hz : B64.ltb hi B64.zero = false).
  { unfold B64.ltb. rewrite Hhi. change (B64.value B64.zero) with (Fin 0).
    apply Qlt_bool_false. exact Hq. }
  destruct (B64.value x) as [qx| | |] eqn:Hv.
  - replace (B64.ltb x B64.zero) with (Qlt_bool qx 0)
      by (unfold B64.ltb; rewrite Hv; reflexivity).
    destruct (Qlt_bool qx 0) eqn:E1;
      [apply Qlt_bool_iff in E1 | apply Qlt_bool_false in E1].
    + rewrite Hz. exists 0. split; [reflexivity | lra].
    + replace (B64.ltb hi x) with (Qlt_bool qhi qx)
        by (unfold B64.ltb; rewrite Hv, Hhi; reflexivity).
      destruct (Qlt_bool qhi qx) eqn:E2;
        [apply Qlt_bool_iff in E2 | apply Qlt_bool_false in E2].
      * exists qhi. split; [exact Hhi | lra].
      * exists qx. split; [exact Hv | lra].
  - replace (B64.ltb x B64.zero) with false
      by (unfold B64.ltb; rewrite Hv; reflexivity).
    replace (B64.ltb hi x) with true
      by (unfold B64.ltb; rewrite Hv, Hhi; reflexivity).
    exists qhi. split; [exact Hhi | lra].
  - replace (B64.ltb x B64.zero) with true
      by (unfold B64.ltb; rewrite Hv; reflexivity).
    rewrite Hz. exists 0. split; [reflexivity | lra].
  - destruct x; try discriminate Hn; try discriminate Hv.
    destruct s; discriminate Hv.
Qed.

Lemma b64_getitem_in_range (img : ndarray) (y x : Z) :
  (0 <= y < Z.of_nat (height img))%Z -> (0 <= x < Z.of_nat (width img))%Z ->
  B64.getitem img y x =
    inr (map (fun k => B64.of_Z (item img (Z.to_nat y) (Z.to_nat x) k))
             (seq 0 (channels img))).
Proof.
  intros Hy Hx. unfold B64.getitem.
  now rewrite (axis_index_in_range _ _ Hy), (axis_index_in_range _ _ Hx).
Qed.

Lemma b64_blend_pixels_map {K} (fx fy : B64.b64)
    (f00 f10 f01 f11 : K -> B64.b64) (ks : list K) :
  B64.blend_pixels fx fy (map f00 ks) (map f10 ks) (map f01 ks) (map f11 ks)
  = map (fun k => B64.blend fx fy (f00 k) (f10 k) (f01 k) (f11 k)) ks.
Proof. induction ks as [|k ks IH]; simpl; [reflexivity | now rewrite IH]. Qed.

Lemma b64_clip_nan (lo hi : B64.b64) :
  B64.np_clip SpecFloat.S754_nan lo hi = SpecFloat.S754_nan.
Proof. reflexivity. Qed.

(** X16. In binary64, on an image with at least one row and one column
    (and dimensions of at most [2 ^ 53]), [bilinear_sample] at one
    coordinate pair raises exactly when a coordinate is NaN: every other
    float, the infinities included, is clamped onto the image, the four
    lookups are in bounds, and the sample has one value per channel. *)
Theorem bilinear_sample_raises_iff_nan (img : ndarray) (x y : B64.b64) :
  (1 <= width img)%nat -> (1 <= height img)%nat ->
  (Z.of_nat (width img) <= 2 ^ 53)%Z -> (Z.of_nat (height img) <= 2 ^ 53)%Z ->
  (B64.is_nan x = false -> B64.is_nan y = false ->
   exists v, B64.bilinear_sample_at img x y = inr v /\
             length v = channels img) /\
  (B64.is_nan x = true \/ B64.is_nan y = true ->
   B64.bilinear_sample_at img x y = inl IndexError).
Proof.
  intros HW HH HW' HH'.
  destruct (of_Z_exact (Z.of_nat (width img) - 1) ltac:(lia)) as (qw & Hqw & Ew).
  destruct (of_Z_exact (Z.of_nat (height img) - 1) ltac:(lia)) as (qh & Hqh & Eh).
  assert (Hw0 : 0 <= qw).
  { rewrite Ew. change 0 with (inject_Z 0). rewrite <- Zle_Qle. lia. }
  assert (Hh0 : 0 <= qh).
  { rewrite Eh. change 0 with (inject_Z 0). rewrite <- Zle_Qle. lia. }
  split.
  - intros Hx Hy.
    destruct (b64_clip_range x _ qw Hx Hqw Hw0) as (qx & Hvx & Hrx).
    destruct (b64_clip_range y _ qh Hy Hqh Hh0) as (qy & Hvy & Hry).
    unfold B64.bilinear_sample_at. cbv zeta. rewrite Hvx, Hvy.
    assert (Hfx : (0 <= Qfloor qx <= Z.of_nat (width img) - 1)%Z)
      by (apply Qfloor_range; rewrite <- Ew; exact Hrx).
    assert (Hfy : (0 <= Qfloor qy <= Z.of_nat (height img) - 1)%Z)
      by (apply Qfloor_range; rewrite <- Eh; exact Hry).
    rewrite !b64_getitem_in_range by lia. cbn [bind].
    rewrite b64_blend_pixels_map. eexists. split; [reflexivity|].
    rewrite length_map, length_seq. reflexivity.
  - intros Hnan. unfold B64.bilinear_sample_at. cbv zeta.
    destruct Hnan as [Hx|Hy].
    + destruct x; try discriminate Hx. rewrite b64_clip_nan. reflexivity.
    + destruct y; try discriminate Hy. rewrite b64_clip_nan.
      destruct (B64.value (B64.np_clip x _ _)); reflexivity.
Qed.

Lemma bilinear_sample_raises_iff_nan_witness :
  (exists v, B64.bilinear_sample_at gradient_4x4
               (SpecFloat.S754_infinity false) (SpecFloat.S754_infinity true)
             = inr v /\ length v = 1%nat) /\
  B64.bilinear_sample_at gradient_4x4 SpecFloat.S754_nan B64.zero
  = inl IndexError.
Proof.
  destruct (bilinear_sample_raises_iff_nan gradient_4x4
              (SpecFloat.S754_infinity false) (SpecFloat.S754_infinity true))
    as [Hret _]; [simpl; lia | simpl; lia | simpl; lia | simpl; lia |].
  destruct (bilinear_sample_raises_iff_nan gradient_4x4
              SpecFloat.S754_nan B64.zero)
    as [_ Hraise]; [simpl; lia | simpl; lia | simpl; lia | simpl; lia |].
  split; [apply Hret; reflexivity | apply Hraise; left; reflexivity].
Defined.

(** ** build_red_to_green_map *)

Lemma Zsum_Permutation (l1 l2 : list Z) : l1 ≡ₚ l2 -> Zsum l1 = Zsum l2.
Proof. induction 1; simpl; lia. Qed.

Lemma greens_Permutation (e1 e2 : ndarray) (r : Z) :
  samples e1 ≡ₚ samples e2 -> greens_of e1 r ≡ₚ greens_of e2 r.
Proof.
  intros H. unfold greens_of. apply Permutation_map. now rewrite H.
Qed.

Lemma np_mean_Permutation (l1 l2 : list Z) :
  l1 ≡ₚ l2 -> np_mean l1 = np_mean l2.
Proof.
  intros H. destruct l1 as [|a l1], l2 as [|b l2]; try reflexivity.
  - apply Permutation_nil_l in H. discriminate.
  - symmetry in H. apply Permutation_nil_l in H. discriminate.
  - unfold np_mean.
    now rewrite (Zsum_Permutation _ _ H), (Permutation_length H).
Qed.

(** X4. The table depends only on the multiset of (red, green) pairs of
    the texture: the order of the pixels, the shape of the image and the
    channels after the second do not matter. *)
Theorem build_table_multiset (e1 e2 : ndarray) :
  (2 <= channels e1)%nat -> (2 <= channels e2)%nat ->
  samples e1 ≡ₚ samples e2 ->
  build_red_to_green_map e1 = build_red_to_green_map e2.
Proof.
  intros H1 H2 Hp. rewrite (build_ok e1 H1), (build_ok e2 H2).
  f_equal. f_equal. apply map_ext. intros r.
  apply np_mean_Permutation, greens_Permutation, Hp.
Qed.

Lemma build_table_multiset_witness :
  build_red_to_green_map erosion_2x2 = build_red_to_green_map erosion_2x2_T.
Proof.
  apply build_table_multiset; [simpl; lia | simpl; lia |].
  change (samples erosion_2x2)
    with [(0, 0); (0, 0); (255, 255); (255, 255)]%Z.
  change (samples erosion_2x2_T)
    with [(0, 0); (255, 255); (0, 0); (255, 255)]%Z.
  apply perm_skip, perm_swap.
Defined.

(** X5. When every pixel of the texture has the same red value [r], all
    256 entries of the table are the mean green of the texture: the single
    data point is extended flat to both sides. *)
Theorem build_table_single_red (e : ndarray) (r : nat) :
  (2 <= channels e)%nat -> (r < 256)%nat ->
  (1 <= height e)%nat -> (1 <= width e)%nat ->
  (forall y x, (y < height e)%nat -> (x < width e)%nat ->
               item e y x 0%nat = Z.of_nat r) ->
  exists t,
    build_red_to_green_map e = inr t /\
    length t = 256%nat /\
    forall i, (i < 256)%nat -> t !! i = Some (mean_green e r).
Proof.
  intros Hc Hr Hh Hw Hred.
  set (f := fun r => np_mean (greens_of e (Z.of_nat r))).
  assert (Hres : resolved e r).
  { exists 0%nat, 0%nat. repeat split; [lia | lia | apply Hred; lia]. }
  assert (Hsome : f r = Some (mean_green e r)) by now apply entry_resolved.
  assert (Hnone : forall j, j <> r -> f j = None).
  { intros j Hj. apply entry_unresolved. intros (y & x & Hy & Hx & H).
    rewrite (Hred y x Hy Hx) in H. lia. }
  eexists. split; [apply (build_ok e Hc)|]. fold f.
  split; [apply interpolate_length|].
  rewrite (interpolate_some_missing f).
  2:{ exists r. split; [exact Hr | rewrite Hsome; eauto]. }
  2:{ destruct (decide (r = 0%nat)) as [->|H0].
      - exists 1%nat. split; [lia | apply Hnone; lia].
      - exists 0%nat. split; [lia | apply Hnone; lia]. }
  intros i Hi. rewrite lookup_map_seq by exact Hi. cbn [Nat.add]. f_equal.
  destruct (le_lt_dec i r) as [Hle|Hgt].
  - apply (anchors_flat_left f 256 r); auto. intros j Hj. apply Hnone. lia.
  - apply (anchors_flat_right f 256 r); auto; [lia|].
    intros j Hj. apply Hnone. lia.
Qed.

Lemma build_table_single_red_witness :
  exists t,
    build_red_to_green_map erosion_red7 = inr t /\
    t !! 200%nat = Some (mean_green erosion_red7 7).
Proof.
  destruct (build_table_single_red erosion_red7 7) as (t & Ht & _ & Hi);
    [simpl; lia | lia | simpl; lia | simpl; lia | reflexivity |].
  exists t. split; [exact Ht | apply Hi; lia].
Defined.

(** X6. When some red value 0..255 has a sample, every entry of the table
    lies between any two integers that bound the green values of the
    texture: means, interpolated entries and flat ends never leave the
    range of the observed greens. *)
Theorem build_table_within_greens (e : ndarray) (lo hi : Z) :
  (2 <= channels e)%nat ->
  (exists r, (r < 256)%nat /\ resolved e r) ->
  (forall y x, (y < height e)%nat -> (x < width e)%nat ->
               (lo <= item e y x 1%nat <= hi)%Z) ->
  exists t,
    build_red_to_green_map e = inr t /\
    Forall (fun v => inject_Z lo <= v <= inject_Z hi) t.
Proof.
  intros Hc (r0 & Hr0 & Hres0) Hg.
  set (f := fun r => np_mean (greens_of e (Z.of_nat r))).
  assert (Hmean : forall r v, f r = Some v -> inject_Z lo <= v <= inject_Z hi).
  { intros r v Hv. pose proof (entry_some_resolved e r v Hv) as Hr.
    unfold f in Hv. rewrite (entry_resolved e r Hr) in Hv. inversion Hv; subst.
    apply (mean_green_range e r lo hi Hr). intros y x Hy Hx _. now apply Hg. }
  eexists. split; [apply (build_ok e Hc)|]. fold f.
  destruct (interpolate_cases f) as [Ha | [Hn | [Hs Hm]]].
  - rewrite (interpolate_all f (fun r => default 0 (f r))).
    + apply Forall_map, Forall_forall. intros r Hr. apply elem_of_seq in Hr.
      cbv beta. destruct (Ha r) as [v Hv]; [lia|]. rewrite Hv. simpl. eauto.
    + intros r Hr. destruct (Ha r Hr) as [v ->]. reflexivity.
  - exfalso. pose proof (entry_resolved e r0 Hres0) as H.
    fold (f r0) in H. rewrite (Hn r0 Hr0) in H. discriminate.
  - rewrite (interpolate_some_missing f Hs Hm).
    apply Forall_map, Forall_forall. intros i _. cbv beta.
    destruct Hs as (r & Hr & Hsome).
    apply interp_range.
    + apply (anchors_nonempty f _ r); [apply elem_of_seq; lia | exact Hsome].
    + apply (anchors_values f (fun v => inject_Z lo <= v <= inject_Z hi)).
      intros; eauto.
Qed.

Lemma build_table_within_greens_witness :
  exists t,
    build_red_to_green_map erosion_red7 = inr t /\
    Forall (fun v => 10 <= v <= 60) t.
Proof.
  destruct (build_table_within_greens erosion_red7 10 60) as (t & Ht & Hr).
  - simpl. lia.
  - exists 7%nat. split; [lia|]. exists 0%nat, 0%nat. simpl. repeat split; lia.
  - intros y x Hy Hx. simpl in *. lia.
  - exists t. split; [exact Ht | exact Hr].
Defined.

(** ** The final clip and cast *)

(** X7. The final step saturates and keeps the order: a sample at or below
    0 is stored as 0, a sample at or above 255 as 255 (the cast never wraps
    around), a sample that is already a byte is stored unchanged, and a
    larger sample is never stored as a smaller byte. *)
Theorem quantize_saturates (v : Q) :
  (v <= 0 -> quantize_sample v = 0%Z) /\
  (255 <= v -> quantize_sample v = 255%Z) /\
  (forall z, (0 <= z <= 255)%Z -> v == inject_Z z -> quantize_sample v = z) /\
  (forall w, v <= w -> (quantize_sample v <= quantize_sample w)%Z).
Proof.
  split; [|split; [|split]].
  - intros H. pose proof (quantize_sample_mono v 0 H) as Hm.
    change (quantize_sample 0) with 0%Z in Hm.
    pose proof (proj2 (quantize_sample_floor v)) as Hb.
    unfold in_byte_range in Hb. lia.
  - intros H. pose proof (quantize_sample_mono 255 v H) as Hm.
    change (quantize_sample 255) with 255%Z in Hm.
    pose proof (proj2 (quantize_sample_floor v)) as Hb.
    unfold in_byte_range in Hb. lia.
  - intros z Hz Hv. rewrite (quantize_sample_comp v _ Hv).
    now apply quantize_sample_byte.
  - apply quantize_sample_mono.
Qed.

Lemma quantize_saturates_witness :
  quantize_sample (-7 # 2) = 0%Z /\ quantize_sample (1000 # 3) = 255%Z /\
  quantize_sample (400 # 2) = 200%Z /\
  (quantize_sample (-7 # 2) <= quantize_sample (3 # 2))%Z.
Proof.
  destruct (quantize_saturates (-7 # 2)) as (H0 & _ & _ & Hm).
  destruct (quantize_saturates (1000 # 3)) as (_ & H255 & _).
  destruct (quantize_saturates (400 # 2)) as (_ & _ & Hz & _).
  split; [apply H0; lra|]. split; [apply H255; lra|].
  split; [apply (Hz 200%Z); [lia | reflexivity] | apply Hm; lra].
Defined.

(** ** remap_gradient: when it raises *)

(** X8. An erosion texture without a green channel makes [remap_gradient]
    raise IndexError for every gradient and all timing parameters: the
    table is built before any column is visited, so even a gradient without
    columns does not return. *)
Theorem remap_raises_without_green (g e : ndarray) (fi fo ad : Q) :
  (channels e < 2)%nat -> remap_gradient g e fi fo ad = inl IndexError.
Proof.
  intros Hc. unfold remap_gradient, remap_result.
  now rewrite (build_raises e Hc).
Qed.

Lemma remap_raises_without_green_witness :
  remap_gradient gradient_4x4 erosion_gray (1 # 2) 2 2 = inl IndexError /\
  remap_gradient (mk_ndarray 0 0 1 (fun _ _ _ => 0%Z)) erosion_gray 0 0 0
  = inl IndexError.
Proof.
  split; apply remap_raises_without_green; simpl; lia.
Defined.

Lemma np_linspace_first (stop : Q) (num : nat) :
  (1 <= num)%nat ->
  exists nt rest, np_linspace 0 stop num = nt :: rest /\ nt == 0.
Proof.
  intros H. destruct num as [|[|num]]; [lia | |].
  - exists 0, []. split; reflexivity.
  - rewrite np_linspace_many by lia. cbn [seq map]. eexists _, _.
    split; [reflexivity|]. change (inject_Z (Z.of_nat 0)) with 0. ring.
Qed.

Lemma np_divide_nan (g ad : Q) : g == 0 -> ad == 0 -> np_divide g ad = NaN.
Proof.
  intros Hg Had. unfold np_divide.
  apply Qeq_bool_iff in Had. rewrite Had.
  destruct (Qlt_bool 0 g) eqn:E1; [apply Qlt_bool_iff in E1; exfalso; lra|].
  destruct (Qlt_bool g 0) eqn:E2; [apply Qlt_bool_iff in E2; exfalso; lra|].
  reflexivity.
Qed.

(** X9. With a zero animation duration [remap_gradient] raises on every
    gradient with at least two columns and one row: row 0 of column 0 has
    the global time 0, the quotient [0 / 0] is NaN, and the lookup at the
    NaN coordinate is out of bounds. *)
Theorem remap_zero_duration (g e : ndarray) (fi fo ad : Q) :
  (2 <= channels e)%nat -> (2 <= width g)%nat -> (1 <= height g)%nat ->
  ad == 0 ->
  remap_gradient g e fi fo ad = inl IndexError.
Proof.
  intros Hc HW HH Had. unfold remap_gradient, remap_result.
  rewrite (build_ok e Hc). cbn [bind].
  set (f := fun r => np_mean (greens_of e (Z.of_nat r))).
  pose proof (interpolate_length f) as Hlen.
  set (t := interpolate_missing (map f (seq 0 256))) in *.
  destruct (width g) as [|w] eqn:EW; [lia|]. cbn [seq remap_columns].
  assert (Hcol : remap_column g t fi fo ad 0 = inl IndexError).
  { unfold remap_column. rewrite EW.
    destruct (table_lookup_ok t _ Hlen
                (column_red_value_range (column_attack (S w) 0)))
      as (green & -> & _).
    cbn [bind]. unfold column_coords. cbn [fst snd].
    destruct (np_linspace_first 1 (height g) HH) as (nt & rest & -> & Hnt).
    cbn [map]. unfold bilinear_sample. cbn [zip zip_with mapM fst snd].
    rewrite np_divide_nan; [reflexivity | | exact Had].
    unfold column_key_press, column_attack.
    replace (1 <? S w)%nat with true by (symmetry; apply Nat.ltb_lt; lia).
    rewrite Hnt. change (inject_Z (Z.of_nat 0)) with 0. unfold Qdiv. ring. }
  now rewrite Hcol.
Qed.

Lemma remap_zero_duration_witness :
  remap_gradient gradient_2x1 erosion_2x2 3 1 0 = inl IndexError.
Proof.
  apply remap_zero_duration; [simpl; lia | simpl; lia | simpl; lia | reflexivity].
Defined.

(** ** remap_gradient: the pixels of the output *)

Lemma set_column_same (col row : nat) (sampled : list (list Q))
    (result : list (list (list Q))) (r : list (list Q)) (px : list Q) :
  result !! row = Some r -> (col < length r)%nat -> sampled !! row = Some px ->
  output_pixel (set_column col sampled result) row col = Some px.
Proof.
  intros Hr Hcol Hpx. unfold output_pixel, set_column.
  rewrite lookup_zip_with, Hr, Hpx. simpl.
  now apply list_lookup_insert_eq.
Qed.

Lemma set_column_other (col col' row : nat) (sampled : list (list Q))
    (result : list (list (list Q))) :
  col <> col' -> length sampled = length result ->
  output_pixel (set_column col sampled result) row col'
  = output_pixel result row col'.
Proof.
  intros Hne Hlen. unfold output_pixel, set_column. rewrite lookup_zip_with.
  destruct (result !! row) as [r|] eqn:Hr; [|reflexivity].
  destruct (sampled !! row) as [px|] eqn:Hpx; simpl.
  - now apply list_lookup_insert_ne.
  - apply lookup_ge_None in Hpx. apply lookup_lt_Some in Hr. lia.
Qed.

(** The loop of [remap_gradient] is [fill_columns] with the body
    [remap_column]. *)
Lemma remap_columns_fill (g : ndarray) (t : list Q) (fi fo ad : Q)
    (cols : list nat) (result : list (list (list Q))) :
  remap_columns g t fi fo ad cols result
  = fill_columns (remap_column g t fi fo ad) cols result.
Proof.
  revert result. induction cols as [|c cols IH]; intros result; [reflexivity|].
  simpl. destruct (remap_column g t fi fo ad c); [reflexivity | apply IH].
Qed.

Section Loop.

Variable body : nat -> res (list (list Q)).
Variables h w c : nat.
Hypothesis body_shape :
  forall col sampled, body col = inr sampled ->
    length sampled = h /\ Forall (fun px => length px = c) sampled.

(** The columns that the loop does not visit keep their pixels. *)
Lemma fill_columns_other (cols : list nat) (result r : list (list (list Q)))
    (row col : nat) :
  has_shape h w c result ->
  fill_columns body cols result = inr r ->
  col ∉ cols ->
  output_pixel r row col = output_pixel result row col.
Proof.
  revert result. induction cols as [|k cols IH]; intros result Hs H Hnot;
    simpl in H.
  - now inversion H.
  - apply bind_inr in H as (sampled & Hc & H).
    destruct (body_shape _ _ Hc) as [Hlen Hpx].
    rewrite (IH _ (set_column_shape _ _ _ k _ _ Hs Hlen Hpx) H)
      by (intros Hin; apply Hnot; now right).
    apply set_column_other; [intros ->; apply Hnot; left|].
    destruct Hs as [-> _]. exact Hlen.
Qed.

(** A visited column holds the pixels sampled for it. *)
Lemma fill_columns_pixel (cols : list nat) (result r : list (list (list Q)))
    (row col : nat) (sampled : list (list Q)) (px : list Q) :
  NoDup cols ->
  has_shape h w c result ->
  fill_columns body cols result = inr r ->
  col ∈ cols -> (col < w)%nat ->
  body col = inr sampled ->
  sampled !! row = Some px ->
  output_pixel r row col = Some px.
Proof.
  intros Hnd. revert result.
  induction Hnd as [|k cols Hk Hnd IH]; intros result Hs H Hin Hcol Hsam Hpx.
  - inversion Hin.
  - simpl in H. apply bind_inr in H as (sampled' & Hc' & H).
    destruct (body_shape _ _ Hc') as [Hlen Hpxs].
    pose proof (set_column_shape _ _ _ k _ _ Hs Hlen Hpxs) as Hs'.
    apply elem_of_cons in Hin as [->|Hin].
    + rewrite (fill_columns_other _ _ _ row k Hs' H Hk).
      rewrite Hc' in Hsam. inversion Hsam; subst sampled'.
      destruct Hs as [Hh Hrows].
      assert (Hrow : (row < length result)%nat).
      { rewrite Hh, <- Hlen. eapply lookup_lt_Some, Hpx. }
      destruct (lookup_lt_is_Some_2 _ _ Hrow) as [rd Hrd].
      apply (set_column_same _ _ _ _ rd); auto.
      rewrite Forall_forall in Hrows.
      destruct (Hrows rd) as [-> _]; [eapply list_elem_of_lookup_2, Hrd | exact Hcol].
    + now apply (IH _ Hs' H).
Qed.

(** A loop that returns has run its body on every column. *)
Lemma fill_columns_body (cols : list nat) (result r : list (list (list Q)))
    (col : nat) :
  fill_columns body cols result = inr r -> col ∈ cols ->
  exists sampled, body col = inr sampled.
Proof.
  revert result. induction cols as [|k cols IH]; intros result H Hin;
    [inversion Hin|].
  simpl in H. apply bind_inr in H as (s & Hs & H).
  apply elem_of_cons in Hin as [->|Hin]; [eauto | eapply IH; eauto].
Qed.

End Loop.

Lemma output_pixel_quantize (result : list (list (list Q))) (row col : nat) :
  output_pixel (quantize result) row col
  = option_map (map quantize_sample) (output_pixel result row col).
Proof.
  unfold output_pixel, quantize.
  destruct (result !! row) as [r|] eqn:Hr.
  - rewrite (lookup_map _ _ _ _ Hr).
    destruct (r !! col) as [px|] eqn:Hpx.
    + now rewrite (lookup_map _ _ _ _ Hpx).
    + simpl. apply lookup_ge_None. rewrite length_map.
      now apply lookup_ge_None.
  - assert (map (map (map quantize_sample)) result !! row = None) as ->;
      [|reflexivity].
    apply lookup_ge_None. rewrite length_map. now apply lookup_ge_None.
Qed.

(** X10. The loop over the columns, whatever arithmetic its body computes
    the samples of a column in: when the loop over the columns 0 to [w - 1]
    of the zero-filled [h] x [w] x [c] array returns and every column's
    samples have [h] rows of [c] channels, pixel (row, col) of the output is
    the quantization of row [row] of the samples of column [col].  The
    columns do not influence each other, and nothing of the zero-filled
    array is left in the output. *)
Theorem remap_output_pixel (body : nat -> res (list (list Q)))
    (h w c : nat) (result : list (list (list Q))) (row col : nat) :
  (forall k sampled, body k = inr sampled ->
     length sampled = h /\ Forall (fun px => length px = c) sampled) ->
  fill_columns body (seq 0 w) (np_zeros h w c) = inr result ->
  (row < h)%nat -> (col < w)%nat ->
  exists sampled px,
    body col = inr sampled /\
    sampled !! row = Some px /\
    output_pixel (quantize result) row col = Some (map quantize_sample px).
Proof.
  intros Hbody Hloop Hrow Hcol.
  assert (Hin : col ∈ seq 0 w) by (apply elem_of_seq; lia).
  destruct (fill_columns_body body _ _ _ col Hloop Hin) as [sampled Hsam].
  destruct (Hbody _ _ Hsam) as [Hlen _].
  destruct (lookup_lt_is_Some_2 sampled row) as [px Hpx]; [lia|].
  exists sampled, px. split; [exact Hsam|]. split; [exact Hpx|].
  rewrite output_pixel_quantize.
  rewrite (fill_columns_pixel body h w c Hbody (seq 0 w) (np_zeros h w c)
             result row col sampled px); auto.
  - apply NoDup_seq.
  - apply np_zeros_shape.
Qed.

Lemma remap_output_pixel_witness :
  exists t result sampled px,
    build_red_to_green_map erosion_2x2 = inr t /\
    remap_result gradient_4x4 erosion_2x2 (1 # 2) 2 2 = inr result /\
    remap_column gradient_4x4 t (1 # 2) 2 2 1 = inr sampled /\
    sampled !! 2%nat = Some px /\
    output_pixel (quantize result) 2 1 = Some (map quantize_sample px).
Proof.
  destruct (build_red_to_green_map erosion_2x2) as [err|t] eqn:Ht;
    [vm_compute in Ht; discriminate Ht|].
  destruct (remap_result gradient_4x4 erosion_2x2 (1 # 2) 2 2)
    as [err|result] eqn:Hres; [vm_compute in Hres; discriminate Hres|].
  pose proof Hres as Hloop. unfold remap_result in Hloop.
  rewrite Ht in Hloop. cbn [bind] in Hloop. rewrite remap_columns_fill in Hloop.
  destruct (remap_output_pixel (remap_column gradient_4x4 t (1 # 2) 2 2)
              4 4 1 result 2 1)
    as (sampled & px & Hsam & Hpx & Hout);
    [apply (remap_column_shape gradient_4x4) | exact Hloop | lia | lia |].
  exists t, result, sampled, px. auto.
Defined.

(** ** The source coordinates of a column *)






(** ** The table entry a column reads *)

Lemma py_round_int (x : Q) (z : Z) : x == inject_Z z -> py_round x = z.
Proof.
  intros H. assert (Hf : Qfloor x = z)
    by (rewrite (Qfloor_comp _ _ H); apply Qfloor_Z).
  unfold py_round. cbv zeta. rewrite Hf.
  destruct (Qlt_bool (x - inject_Z z) (1 # 2)) eqn:E; [reflexivity|].
  apply Qlt_bool_false in E. exfalso. lra.
Qed.

Lemma py_round_floor (x : Q) :
  py_round x = Qfloor x \/ py_round x = (Qfloor x + 1)%Z.
Proof.
  unfold py_round. cbv zeta.
  destruct (Qlt_bool _ _); [now left|].
  destruct (Qlt_bool _ _); [now right|].
  destruct (Z.even _); [now left | now right].
Qed.

Lemma py_round_mono (x y : Q) : x <= y -> (py_round x <= py_round y)%Z.
Proof.
  intros H. pose proof (Qfloor_resp_le x y H) as Hf.
  destruct (Z.eq_dec (Qfloor x) (Qfloor y)) as [E|E].
  - unfold py_round. cbv zeta. rewrite E.
    destruct (Qlt_bool (x - inject_Z (Qfloor y)) (1 # 2)) eqn:E1;
      [apply Qlt_bool_iff in E1 | apply Qlt_bool_false in E1];
    destruct (Qlt_bool (y - inject_Z (Qfloor y)) (1 # 2)) eqn:E2;
      [apply Qlt_bool_iff in E2 | apply Qlt_bool_false in E2
      |apply Qlt_bool_iff in E2 | apply Qlt_bool_false in E2];
    destruct (Qlt_bool (1 # 2) (x - inject_Z (Qfloor y))) eqn:E3;
      [apply Qlt_bool_iff in E3 | apply Qlt_bool_false in E3
      |apply Qlt_bool_iff in E3 | apply Qlt_bool_false in E3
      |apply Qlt_bool_iff in E3 | apply Qlt_bool_false in E3
      |apply Qlt_bool_iff in E3 | apply Qlt_bool_false in E3];
    destruct (Qlt_bool (1 # 2) (y - inject_Z (Qfloor y))) eqn:E4;
    try (apply Qlt_bool_iff in E4); try (apply Qlt_bool_false in E4);
    destruct (Z.even (Qfloor y)); try lia; exfalso; lra.
  - destruct (py_round_floor x) as [-> | ->], (py_round_floor y) as [-> | ->]; lia.
Qed.

(** X14. The table entry a column reads: entry 128 for a one-column
    gradient; for a wider one, entry 255 in column 0 and entry 0 in the last
    column, and never a larger entry in a column further to the right. *)
Theorem column_red_value_order (W : nat) :
  ((W <= 1)%nat ->
   forall col, column_red_value (column_attack W col) = 128%Z) /\
  ((2 <= W)%nat ->
   column_red_value (column_attack W 0) = 255%Z /\
   column_red_value (column_attack W (W - 1)) = 0%Z /\
   forall c1 c2, (c1 <= c2)%nat ->
     (column_red_value (column_attack W c2)
      <= column_red_value (column_attack W c1))%Z).
Proof.
  split.
  - intros HW col. unfold column_attack.
    replace (1 <? W)%nat with false by (symmetry; apply Nat.ltb_ge; lia).
    reflexivity.
  - intros HW.
    assert (Hd : 0 < inject_Z (Z.of_nat W - 1))
      by (change 0 with (inject_Z 0); rewrite <- Zlt_Qlt; lia).
    assert (Hatt : forall col, column_attack W col
                   = inject_Z (Z.of_nat col) / inject_Z (Z.of_nat W - 1)).
    { intros col. unfold column_attack.
      now replace (1 <? W)%nat with true by (symmetry; apply Nat.ltb_lt; lia). }
    split; [|split].
    + unfold column_red_value. rewrite (py_round_int _ 255); [reflexivity|].
      rewrite Hatt. change (inject_Z (Z.of_nat 0)) with 0.
      change (inject_Z 255) with 255. field. lra.
    + unfold column_red_value. rewrite (py_round_int _ 0); [reflexivity|].
      rewrite Hatt. replace (Z.of_nat (W - 1)) with (Z.of_nat W - 1)%Z by lia.
      change (inject_Z 0) with 0. field. lra.
    + intros c1 c2 H12. unfold column_red_value, Zclip.
      assert (Hr : (py_round (255 * (1 - column_attack W c2))
                    <= py_round (255 * (1 - column_attack W c1)))%Z).
      { apply py_round_mono. rewrite !Hatt.
        assert (Hle : inject_Z (Z.of_nat c1) / inject_Z (Z.of_nat W - 1)
                      <= inject_Z (Z.of_nat c2) / inject_Z (Z.of_nat W - 1)).
        { apply Qle_shift_div_l; [exact Hd|].
          assert (E : inject_Z (Z.of_nat c1) / inject_Z (Z.of_nat W - 1)
                      * inject_Z (Z.of_nat W - 1) == inject_Z (Z.of_nat c1))
            by (field; lra).
          rewrite E, <- Zle_Qle. lia. }
        lra. }
      lia.
Qed.

Lemma column_red_value_order_witness :
  column_red_value (column_attack 1 0) = 128%Z /\
  column_red_value (column_attack 4 0) = 255%Z /\
  column_red_value (column_attack 4 3) = 0%Z /\
  (column_red_value (column_attack 4 2) <= column_red_value (column_attack 4 1))%Z.
Proof.
  destruct (column_red_value_order 1) as [H1 _].
  destruct (column_red_value_order 4) as [_ H4].
  destruct H4 as (Ha & Hb & Hc); [lia|].
  split; [apply H1; lia|]. split; [exact Ha|]. split; [exact Hb | apply Hc; lia].
Defined.
